(* Verification of the SyncDisBoi synchronization core (Rust sources under
   src/): the canonical playlist model, the YouTube Music retry loop and
   pagination, the per-platform search and playlist-append operations, the
   playlist de-duplication of the platform clients, and the orchestrator
   [synchronize_playlists] of src/sync.rs. *)

From Stdlib Require Import Ascii String Lia.
From stdpp Require Import base list gmap strings pretty.

Import ListNotations.
Local Open Scope string_scope.
Local Open Scope list_scope.
Local Open Scope nat_scope.

(* ------------------------------------------------------------------------- *)
(** * Canonical music model (crate::music_api) *)

Inductive MusicApiType := YtMusic | Tidal | Plex | Spotify.

Definition MusicApiType_eqb (a b : MusicApiType) : bool :=
  match a, b with
  | YtMusic, YtMusic | Tidal, Tidal | Plex, Plex | Spotify, Spotify => true
  | _, _ => false
  end.

Record Artist := { artist_id : option string; artist_name : string }.
Record Album := { album_id : option string; album_name : string }.

Record Song := {
  song_source : MusicApiType;
  song_id : string;
  song_sid : option string;
  song_isrc : option string;
  song_name : string;
  song_artists : list Artist;
  song_album : option Album;
  song_duration_ms : nat
}.

Record Playlist := {
  pl_id : string;
  pl_name : string;
  pl_songs : list Song;
  pl_owner : option string
}.

Definition set_songs (p : Playlist) (s : list Song) : Playlist :=
  {| pl_id := pl_id p; pl_name := pl_name p; pl_songs := s; pl_owner := pl_owner p |}.

Definition set_isrc (s : Song) (i : option string) : Song :=
  {| song_source := song_source s; song_id := song_id s; song_sid := song_sid s;
     song_isrc := i; song_name := song_name s; song_artists := song_artists s;
     song_album := song_album s; song_duration_ms := song_duration_ms s |}.

Definition str_eqb (a b : string) : bool := bool_decide (a = b).

(** [slice::join(",")] on strings. *)
Fixpoint join_comma (l : list string) : string :=
  match l with
  | [] => ""
  | [x] => x
  | x :: l' => (x ++ "," ++ join_comma l')%string
  end.

(** [str::split(',')] on strings: the parts between the commas. *)
Fixpoint split_comma (s : string) : list string :=
  match s with
  | EmptyString => [EmptyString]
  | String c rest =>
      match split_comma rest with
      | [] => []
      | p :: ps =>
          if Ascii.eqb c ","%char then EmptyString :: p :: ps
          else String c p :: ps
      end
  end.

(* ------------------------------------------------------------------------- *)
(** * yt_music/response.rs: [parse_duration] *)

Module Duration.

(** Results of a Rust function that may return [Ok], return [Err] or panic. *)
Inductive Res (A : Type) := ROk (a : A) | RErr | RPanic.
Arguments ROk {A} a.
Arguments RErr {A}.
Arguments RPanic {A}.

(** [usize] is 64 bits wide. *)
Definition usize_max : N := 2 ^ 64 - 1.

(** Arithmetic on [usize] with the overflow checks of a debug build: an
    overflow panics. *)
Definition usize_add (a b : N) : Res N :=
  if (a + b <=? usize_max)%N then ROk (a + b)%N else RPanic.
Definition usize_mul (a b : N) : Res N :=
  if (a * b <=? usize_max)%N then ROk (a * b)%N else RPanic.

(** The decimal digits of [<usize as FromStr>::from_str], the value
    accumulated in [acc]; a non-digit or an overflow is an error. *)
Fixpoint digits_value (acc : N) (s : string) : option N :=
  match s with
  | EmptyString => Some acc
  | String c rest =>
      let n := N_of_ascii c in
      if (48 <=? n)%N && (n <=? 57)%N then
        let acc' := (acc * 10 + (n - 48))%N in
        if (acc' <=? usize_max)%N then digits_value acc' rest else None
      else None
  end.

(** [part.parse::<usize>()]: an optional leading '+', then at least one
    digit. *)
Definition parse_usize (s : string) : option N :=
  match s with
  | EmptyString => None
  | String c rest =>
      if Ascii.eqb c "+"%char then
        match rest with EmptyString => None | _ => digits_value 0 rest end
      else digits_value 0 s
  end.

(** [str::split(':')]: the parts between the colons, left to right. *)
Fixpoint split_colon (s : string) : list string :=
  match s with
  | EmptyString => [EmptyString]
  | String c rest =>
      match split_colon rest with
      | [] => []
      | p :: ps =>
          if Ascii.eqb c ":"%char then EmptyString :: p :: ps
          else String c p :: ps
      end
  end.

(** [str::rsplit(':')]: the same parts, right to left. *)
Definition rsplit_colon (s : string) : list string := rev (split_colon s).

Definition multipliers : list N := [1; 60; 3600]%N.

(** The body of the [for (i, part) in ...enumerate()] loop:
    [seconds += part.parse::<usize>()? * multipliers[i]]; the parse comes
    first, then the (bounds-checked) index. *)
Fixpoint parse_loop (i : nat) (parts : list string) (seconds : N) : Res N :=
  match parts with
  | [] => ROk seconds
  | part :: rest =>
      match parse_usize part with
      | None => RErr
      | Some v =>
          match multipliers !! i with
          | None => RPanic
          | Some m =>
              match usize_mul v m with
              | ROk vm =>
                  match usize_add seconds vm with
                  | ROk s' => parse_loop (S i) rest s'
                  | _ => RPanic
                  end
              | _ => RPanic
              end
          end
      end
  end.

Definition parse_duration (duration_str : string) : Res N :=
  match parse_loop 0 (rsplit_colon duration_str) 0 with
  | ROk seconds => usize_mul seconds 1000
  | RErr => RErr
  | RPanic => RPanic
  end.

(** The seconds the parts [vs] (right to left) stand for when the i-th part
    from the right is weighted by the i-th multiplier. *)
Fixpoint weighted (i : nat) (vs : list N) : N :=
  match vs with
  | [] => 0%N
  | v :: vs' => (v * nth i multipliers 0 + weighted (S i) vs')%N
  end.

End Duration.

(* ------------------------------------------------------------------------- *)
(** * yt_music/mod.rs: rate-limit detection and the retry loop of
      [make_request] *)

Module Retry.

Local Open Scope nat_scope.

(** What the retry loop looks at in one HTTP response: its status code,
    whether its text contains "automated queries", and whether
    [check_authentication_errors] rejects its text. *)
Record HttpResponse := {
  status : N;
  text_automated_queries : bool;
  text_auth_failure : bool
}.

Definition MAX_RETRIES : nat := 5.
Definition MAX_BACKOFF_SECS : nat := 900.

Definition is_client_error (s : N) : bool := (400 <=? s)%N && (s <? 500)%N.
Definition is_server_error (s : N) : bool := (500 <=? s)%N && (s <? 600)%N.

Inductive RateLimitAction := Retry (backoff_secs : nat) | Continue | MaxRetriesExceeded.

Definition is_rate_limited (r : HttpResponse) : bool :=
  (status r =? 429)%N || (is_client_error (status r) && text_automated_queries r).

Definition handle_rate_limit_with_retry (r : HttpResponse) (retry_count : nat)
  : RateLimitAction :=
  if negb (is_rate_limited r) then Continue
  else if MAX_RETRIES <=? retry_count then MaxRetriesExceeded
  else Retry (Nat.min (3 ^ (retry_count + 1)) MAX_BACKOFF_SECS).

(** How one call of [make_request] ends. [ReqNoResponse] only says that the
    finite list of responses given to the model ran out. *)
Inductive RequestOutcome :=
  | ReqOk
  | ReqAuthError
  | ReqRateLimitExhausted
  | ReqHttpError
  | ReqNoResponse.

(** The [loop] of [make_request]: each iteration consumes one response;
    the result carries the sleeps taken, in order (seconds). *)
Fixpoint make_request_loop (responses : list HttpResponse) (retry_count : nat)
  : RequestOutcome * list nat :=
  match responses with
  | [] => (ReqNoResponse, [])
  | r :: rs =>
      if text_auth_failure r then (ReqAuthError, [])
      else
        match handle_rate_limit_with_retry r retry_count with
        | Retry d =>
            let '(o, sleeps) := make_request_loop rs (S retry_count) in (o, d :: sleeps)
        | MaxRetriesExceeded => (ReqRateLimitExhausted, [])
        | Continue =>
            if is_client_error (status r) || is_server_error (status r)
            then (ReqHttpError, []) else (ReqOk, [])
        end
  end.

Definition make_request (responses : list HttpResponse) : RequestOutcome * list nat :=
  make_request_loop responses 0.

(** One iteration of the [loop] of [make_request], up to the checks:
    either a response, or a failure of [request.send().await?], of
    [res.text().await?] or (debug mode) of the [std::fs::write] of the
    response, each of which returns from [make_request] at once. *)
Inductive Attempt := Answered (r : HttpResponse) | Failed.

Inductive AttemptOutcome := Outcome (o : RequestOutcome) | AttemptFailed.

(** The [loop] of [make_request] over attempts that may fail. A failed
    write of the diagnostic file ends the call at the same response as
    [ReqRateLimitExhausted] or [ReqHttpError], with another error; after
    [ReqOk] the call goes on to parse the JSON. *)
Fixpoint make_request_attempts (attempts : list Attempt) (retry_count : nat)
  : AttemptOutcome * list nat :=
  match attempts with
  | [] => (Outcome ReqNoResponse, [])
  | Failed :: _ => (AttemptFailed, [])
  | Answered r :: rs =>
      if text_auth_failure r then (Outcome ReqAuthError, [])
      else
        match handle_rate_limit_with_retry r retry_count with
        | Retry d =>
            let '(o, sleeps) := make_request_attempts rs (S retry_count) in (o, d :: sleeps)
        | MaxRetriesExceeded => (Outcome ReqRateLimitExhausted, [])
        | Continue =>
            if is_client_error (status r) || is_server_error (status r)
            then (Outcome ReqHttpError, []) else (Outcome ReqOk, [])
        end
  end.

Definition rate_limited_429 : HttpResponse :=
  {| status := 429; text_automated_queries := false; text_auth_failure := false |}.
Definition ok_200 : HttpResponse :=
  {| status := 200; text_automated_queries := false; text_auth_failure := false |}.

End Retry.

(* ------------------------------------------------------------------------- *)
(** * Pagination: [YtMusicApi::paginated_request] (continuation tokens) and
      [TidalApi::paginated_request] (offset/limit) *)

Module Pagination.

Section Pages.

Variable Item : Type.

(** A continuation-listing page, as [get_continuation] and [merge] see it:
    its items and the continuation token it carries. *)
Record Page := { page_items : list Item; page_continuation : option string }.

(** The server's answers: [responses n] is the page returned by the n-th
    request of the listing (request 0 is the first, token-less one). *)
Variable responses : nat -> Page.

(** [while let Some(cont) = continuation { ... }]: fetch the next page,
    take its token, merge its items. [fuel] bounds the number of
    continuation requests; [None] means the loop had not ended after [fuel]
    of them. *)
Fixpoint continuation_loop (fuel : nat) (n : nat) (continuation : option string)
    (merged : list Item) : option (list Item) :=
  match continuation with
  | None => Some merged
  | Some _ =>
      match fuel with
      | O => None
      | S fuel' =>
          let response2 := responses n in
          continuation_loop fuel' (S n) (page_continuation response2)
            (merged ++ page_items response2)
      end
  end.

Definition paginated_request (fuel : nat) : option (list Item) :=
  let response := responses 0 in
  continuation_loop fuel 1 (page_continuation response) (page_items response).

(** The offset listing of Tidal: [page_at offset] are the items returned
    for a request at [offset]; [total] is the first page's
    [total_number_of_items]. *)
Variable page_at : nat -> list Item.
Variable total : nat.

Fixpoint offset_loop (fuel : nat) (limit offset : nat) (items : list Item) : list Item :=
  match fuel with
  | O => items
  | S fuel' =>
      if offset <? total then
        match page_at offset with
        | [] => items
        | res2 => offset_loop fuel' limit (offset + limit) (items ++ res2)
        end
      else items
  end.

Definition tidal_paginated_request (limit : nat) : list Item :=
  match page_at 0 with
  | [] => []
  | first => offset_loop total limit limit first
  end.

End Pages.

Arguments Build_Page {Item}.
Arguments page_items {Item}.
Arguments page_continuation {Item}.

End Pagination.

(* ------------------------------------------------------------------------- *)
(** * [get_playlists_info] of YtMusicApi and TidalApi: de-duplication by id *)

Module Dedup.

(** The [for playlist in &playlists.0] loop with its
    [seen_ids: HashMap<String, bool>]; the second component lists the
    playlists for which the "Duplicate playlist found" warning is logged. *)
Fixpoint dedup_loop (seen_ids : gmap string bool) (playlists : list Playlist)
  : list Playlist * list Playlist :=
  match playlists with
  | [] => ([], [])
  | p :: rest =>
      match seen_ids !! pl_id p with
      | Some _ =>
          let '(kept, warned) := dedup_loop seen_ids rest in (kept, p :: warned)
      | None =>
          let '(kept, warned) := dedup_loop (<[pl_id p := true]> seen_ids) rest in
          (p :: kept, warned)
      end
  end.

Definition dedup_playlists (playlists : list Playlist) : list Playlist * list Playlist :=
  dedup_loop ∅ playlists.

End Dedup.

(* ------------------------------------------------------------------------- *)
(** * [search_song] of the three platform clients *)

Definition ascii_upper (c : ascii) : ascii :=
  let n := nat_of_ascii c in
  if (97 <=? n) && (n <=? 122) then ascii_of_nat (n - 32) else c.
Definition ascii_lower (c : ascii) : ascii :=
  let n := nat_of_ascii c in
  if (65 <=? n) && (n <=? 90) then ascii_of_nat (n + 32) else c.

Fixpoint string_map (f : ascii -> ascii) (s : string) : string :=
  match s with
  | EmptyString => EmptyString
  | String c rest => String (f c) (string_map f rest)
  end.

(** [str::to_uppercase] and [str::to_lowercase], on the ASCII letters. *)
Definition to_uppercase := string_map ascii_upper.
Definition to_lowercase := string_map ascii_lower.

Module Search.

(** The requests a search issues, in order. *)
Inductive SearchRequest := ByIsrc (isrc : string) | ByQuery (query : string).

(** [Vec::pop]: the last element and the rest. *)
Definition pop {A} (l : list A) : option (A * list A) :=
  match last l with
  | None => None
  | Some x => Some (x, removelast l)
  end.

Section Queries.

(** [Song::build_queries] and [Song::compare] (crate::music_api). *)
Variable build_queries : Song -> list string.
Variable compare : Song -> Song -> bool.

(** [while let Some(query) = queries.pop() { ... }]: [attempt q] is what the
    loop body returns for query [q] ([Some] returns from [search_song]).
    [fuel] is an upper bound on the number of iterations; the callers pass
    the number of queries, which is always enough. *)
Fixpoint while_pop (attempt : string -> option Song) (fuel : nat) (queries : list string)
  : option Song * list SearchRequest :=
  match fuel with
  | O => (None, [])
  | S fuel' =>
      match pop queries with
      | None => (None, [])
      | Some (query, rest) =>
          match attempt query with
          | Some s => (Some s, [ByQuery query])
          | None =>
              let '(r, reqs) := while_pop attempt fuel' rest in (r, ByQuery query :: reqs)
          end
      end
  end.

Definition query_loop (attempt : string -> option Song) (song : Song)
  : option Song * list SearchRequest :=
  let queries := build_queries song in while_pop attempt (length queries) queries.

(** YtMusicApi::search_song. [isrc_result i] is the [SearchSongUnique]
    parsed from the search for ["\"i\""]; [query_result q] the
    [SearchSongs] of the text search for [q]. *)
Definition yt_search_song (isrc_result : string -> option Song)
    (query_result : string -> list Song) (song : Song) : option Song * list SearchRequest :=
  match song_isrc song with
  | Some isrc =>
      match isrc_result isrc with
      | Some res_song => (Some (set_isrc res_song (Some isrc)), [ByIsrc isrc])
      | None => (None, [ByIsrc isrc])
      end
  | None =>
      query_loop (fun q => List.find (compare song) (firstn 3 (query_result q))) song
  end.

(** TidalApi::search_song: the ISRC filter is sent upper-cased and the
    first track returned is taken. *)
Definition tidal_search_song (isrc_result : string -> list Song)
    (query_result : string -> list Song) (song : Song) : option Song * list SearchRequest :=
  match song_isrc song with
  | Some isrc =>
      match isrc_result (to_uppercase isrc) with
      | [] => (None, [ByIsrc (to_uppercase isrc)])
      | res :: _ => (Some res, [ByIsrc (to_uppercase isrc)])
      end
  | None =>
      query_loop (fun q => List.find (compare song) (firstn 3 (query_result q))) song
  end.

(** PlexApi::search_song: every hub result of every query is compared. *)
Definition plex_search_song (hub_result : string -> list Song) (song : Song)
  : option Song * list SearchRequest :=
  query_loop (fun q => List.find (compare song) (hub_result q)) song.

End Queries.

End Search.

(* ------------------------------------------------------------------------- *)
(** * [add_songs_to_playlist] of the three platform clients *)

Module AddSongs.

Import Duration.

(** How YouTube Music answers one [browse/edit_playlist] request. *)
Inductive EditResponse :=
  | EditSuccess
  | EditDuplicatesDialog      (* confirm dialog titled "Duplicates" *)
  | EditAlreadyInPlaylist     (* toast "This track is already in the playlist" *)
  | EditFailure.

(** YtMusicApi::add_songs_to_playlist; [remote batch] is the answer to the
    request adding [batch]. The songs are pushed onto [playlist.songs]
    before the request; on a "Duplicates" dialog the batch is split at
    [len / 2] and both halves are sent again (the [3] s sleep between them
    is not modelled). [fuel] bounds the recursion depth; the length of the
    batch is always enough since each half is shorter. *)
Fixpoint yt_add_songs (remote : list Song -> EditResponse) (fuel : nat)
    (playlist : Playlist) (songs : list Song) : Playlist * Res unit :=
  let playlist := set_songs playlist (pl_songs playlist ++ songs) in
  match remote songs with
  | EditSuccess => (playlist, ROk tt)
  | EditAlreadyInPlaylist => (playlist, ROk tt)
  | EditFailure => (playlist, RErr)
  | EditDuplicatesDialog =>
      if 1 <? length songs then
        match fuel with
        | O => (playlist, RErr)
        | S fuel' =>
            let mid := length songs / 2 in
            match yt_add_songs remote fuel' playlist (firstn mid songs) with
            | (playlist, ROk _) => yt_add_songs remote fuel' playlist (skipn mid songs)
            | other => other
            end
        end
      else (playlist, ROk tt)
  end.

Definition yt_add_songs_to_playlist (remote : list Song -> EditResponse)
    (playlist : Playlist) (songs : list Song) : Playlist * Res unit :=
  yt_add_songs remote (length songs) playlist songs.

(** TidalApi::add_songs_to_playlist: [remote_ok] is whether the ETag
    request and the POST succeed. The playlist value is left as it is. *)
Definition tidal_add_songs_to_playlist (remote_ok : bool)
    (playlist : Playlist) (songs : list Song) : Playlist * Res unit :=
  match songs with
  | [] => (playlist, ROk tt)
  | _ => (playlist, if remote_ok then ROk tt else RErr)
  end.

(** [slice::chunks(n)]. *)
Fixpoint chunks_fuel {A} (fuel n : nat) (l : list A) : list (list A) :=
  match fuel, l with
  | O, _ | _, [] => []
  | S fuel', _ => firstn n l :: chunks_fuel fuel' n (skipn n l)
  end.
Definition chunks {A} (n : nat) (l : list A) : list (list A) := chunks_fuel (length l) n l.

(** PlexApi::add_songs_to_playlist: one PUT per chunk of 5 songs,
    [remote_ok chunk] whether it succeeds; the playlist value is left as
    it is. *)
Definition plex_add_songs_to_playlist (remote_ok : list Song -> bool)
    (playlist : Playlist) (songs : list Song) : Playlist * Res unit :=
  (playlist, if forallb remote_ok (chunks 5 songs) then ROk tt else RErr).

End AddSongs.

(* ------------------------------------------------------------------------- *)
(** * sync.rs: [synchronize_playlists] *)

Module Sync.

(** The mutation calls the orchestrator makes on the destination client. *)
Inductive Mutation :=
  | MCreatePlaylist (name : string)
  | MAddSongs (playlist_id : string) (songs : list Song)
  | MAddLikes (songs : list Song).

(** The statics [SONG_COUNTER] and [SLEEP_DURATION]. *)
Record Pacing := { song_counter : nat; sleep_duration : nat }.

(** Their values when the process starts. *)
Definition pacing_init : Pacing := {| song_counter := 0; sleep_duration := 180 |}.

(** [SONG_COUNTER += 1; if SONG_COUNTER % 200 == 0 { sleep(SLEEP_DURATION);
    SLEEP_DURATION += 60 }]: the new statics and the sleep taken. *)
Definition pace (p : Pacing) : Pacing * option nat :=
  let c := S (song_counter p) in
  if c mod 200 =? 0
  then ({| song_counter := c; sleep_duration := sleep_duration p + 60 |}, Some (sleep_duration p))
  else ({| song_counter := c; sleep_duration := sleep_duration p |}, None).

(** The destination account as the orchestrator sees it, the mutation calls
    issued so far, the pacing statics (process-wide: they live as long as
    the process, across calls of [synchronize_playlists]) and the pacing
    sleeps taken. *)
Record World := {
  remote_playlists : list Playlist;
  remote_likes : list Song;
  mutations : list Mutation;
  pacing : Pacing;
  cooldowns : list nat;
  next_id : N
}.

Definition set_pacing (w : World) (p : Pacing) (slept : option nat) : World :=
  {| remote_playlists := remote_playlists w; remote_likes := remote_likes w;
     mutations := mutations w; pacing := p;
     cooldowns := match slept with Some d => cooldowns w ++ [d] | None => cooldowns w end;
     next_id := next_id w |}.

(** The fixed list [SKIPPED_PLAYLISTS]. *)
Definition SKIPPED_PLAYLISTS : list string :=
  [ "New playlist"; "Your Likes"; "My Supermix"; "Discover Mix";
    "Episodes for Later"; "New Release Mix"; "Archive Mix";
    "Liked Songs"; "Discover Weekly"; "Big Room House Mix";
    "Motivation Electronic Mix"; "High Energy Mix" ].

(** [!skip_playlists.iter().any(|skipped| name.to_lowercase() == skipped.to_lowercase())],
    with [to_lowercase] for Rust's [str::to_lowercase]. *)
Definition skip_listed (to_lowercase : string -> string) (skip_playlists : list string)
    (p : Playlist) : bool :=
  existsb (fun skipped => str_eqb (to_lowercase (pl_name p)) (to_lowercase skipped))
    skip_playlists.

(** [SKIPPED_PLAYLISTS.contains(&p.name.as_str())] *)
Definition fixed_skipped (p : Playlist) : bool :=
  existsb (fun n => str_eqb (pl_name p) n) SKIPPED_PLAYLISTS.

(** [position(|p| p.name == name)] followed by [remove(i)]. *)
Fixpoint remove_first_named (name : string) (l : list Playlist)
  : option (Playlist * list Playlist) :=
  match l with
  | [] => None
  | p :: ps =>
      if str_eqb (pl_name p) name then Some (p, ps)
      else match remove_first_named name ps with
           | Some (q, rest) => Some (q, p :: rest)
           | None => None
           end
  end.

Definition option_string_eqb (a b : option string) : bool := bool_decide (a = b).

(** [dst_playlists.retain(...)] whose closure also removes, for each
    destination playlist not owned by [dst_owner], the first source
    playlist of the same name. Returns the kept destination playlists and
    the remaining source playlists. *)
Fixpoint owner_retain (dst_owner : string) (dst : list Playlist) (src : list Playlist)
  : list Playlist * list Playlist :=
  match dst with
  | [] => ([], src)
  | d :: ds =>
      if negb (option_string_eqb (pl_owner d) (Some dst_owner)) then
        let src' := match remove_first_named (pl_name d) src with
                    | Some (_, rest) => rest
                    | None => src
                    end in
        owner_retain dst_owner ds src'
      else
        let '(kept, src') := owner_retain dst_owner ds src in (d :: kept, src')
  end.

Definition song_key_eqb (a b : Song) : bool :=
  MusicApiType_eqb (song_source a) (song_source b) && str_eqb (song_id a) (song_id b).

(** Modelled from the spec: [crate::utils::dedup_songs] (not in the
    sources) removes platform-level duplicates, songs with the same source
    and id as an earlier song, keeping the first occurrence. *)
Fixpoint dedup_songs_from (seen : list Song) (songs : list Song) : list Song :=
  match songs with
  | [] => []
  | s :: rest =>
      if existsb (song_key_eqb s) seen then dedup_songs_from seen rest
      else s :: dedup_songs_from (s :: seen) rest
  end.

Definition dedup_songs (songs : list Song) : list Song := dedup_songs_from [] songs.

Section Orchestrator.

(** [dst_api.api_type()]. *)
Variable dst_type : MusicApiType.
(** [PartialEq for Song], used by every [contains]. *)
Variable song_eq : Song -> Song -> bool.
(** [dst_api.search_song], on a fixed destination catalogue. *)
Variable search_song : Song -> option Song.
(** The owner the destination reports for playlists created by this
    account. *)
Variable dst_account : string.
(** [str::to_lowercase] (Unicode case mapping), used by the skip-list
    filter. *)
Variable to_lowercase : string -> string.

(** [Vec::contains]: some element [e] with [e == x]. *)
Definition contains (l : list Song) (x : Song) : bool := existsb (fun e => song_eq e x) l.

(** Modelled from the spec: [create_playlist] creates an empty playlist on
    the destination; the value returned has owner [Some("")]. *)
Definition create_playlist (w : World) (name : string) : Playlist * World :=
  let id := pretty (next_id w) in
  ({| pl_id := id; pl_name := name; pl_songs := []; pl_owner := Some "" |},
   {| remote_playlists := remote_playlists w ++
        [{| pl_id := id; pl_name := name; pl_songs := []; pl_owner := Some dst_account |}];
      remote_likes := remote_likes w;
      mutations := mutations w ++ [MCreatePlaylist name];
      pacing := pacing w; cooldowns := cooldowns w;
      next_id := (next_id w + 1)%N |}).

(** Modelled from the spec: [add_songs_to_playlist] appends the batch to
    the destination playlist with that id. *)
Definition add_songs_to_playlist (w : World) (playlist : Playlist) (songs : list Song) : World :=
  {| remote_playlists :=
       map (fun p => if str_eqb (pl_id p) (pl_id playlist)
                     then set_songs p (pl_songs p ++ songs) else p) (remote_playlists w);
     remote_likes := remote_likes w;
     mutations := mutations w ++ [MAddSongs (pl_id playlist) songs];
     pacing := pacing w; cooldowns := cooldowns w; next_id := next_id w |}.

(** Modelled from the spec: [add_likes] likes the songs. *)
Definition add_likes (w : World) (songs : list Song) : World :=
  {| remote_playlists := remote_playlists w;
     remote_likes := remote_likes w ++ songs;
     mutations := mutations w ++ [MAddLikes songs];
     pacing := pacing w; cooldowns := cooldowns w; next_id := next_id w |}.

(** The pacing block of the song loop (only for a YtMusic destination). *)
Definition pace_world (w : World) : World :=
  if MusicApiType_eqb dst_type YtMusic
  then let '(p, slept) := pace (pacing w) in set_pacing w p slept
  else w.

(** Step 1, "Search for each song in the destination playlist": the matched
    songs [dst_songs], in order. [present] is [dst_playlist.songs]. *)
Fixpoint search_loop (present : list Song) (src_songs : list Song) (w : World)
  : list Song * World :=
  match src_songs with
  | [] => ([], w)
  | src_song :: rest =>
      if contains present src_song then search_loop present rest w
      else
        let w := pace_world w in
        match search_song src_song with
        | None => search_loop present rest w
        | Some dst_song =>
            let '(found, w) := search_loop present rest w in (dst_song :: found, w)
        end
  end.

(** Step 2: the batch [to_sync]. *)
Fixpoint build_to_sync (present : list Song) (dst_songs : list Song) (to_sync : list Song)
  : list Song :=
  match dst_songs with
  | [] => to_sync
  | d :: ds =>
      if contains present d then build_to_sync present ds to_sync
      else if contains to_sync d then build_to_sync present ds to_sync
      else build_to_sync present ds (to_sync ++ [d])
  end.

(** One iteration of [for mut src_playlist in ...]: the remaining
    destination playlists and the world after it. *)
Definition sync_playlist (like_all : bool) (dst_likes : list Song) (src_playlist : Playlist)
    (st : list Playlist * World) : list Playlist * World :=
  let '(dst_playlists, w) := st in
  match pl_songs src_playlist with
  | [] => (dst_playlists, w)
  | _ =>
      let '(dst_playlist, dst_playlists, w) :=
        match remove_first_named (pl_name src_playlist) dst_playlists with
        | Some (p, rest) => (p, rest, w)
        | None => let '(p, w) := create_playlist w (pl_name src_playlist) in (p, dst_playlists, w)
        end in
      let src_songs := dedup_songs (pl_songs src_playlist) in
      let '(dst_songs, w) := search_loop (pl_songs dst_playlist) src_songs w in
      match dst_songs with
      | [] => (dst_playlists, w)
      | _ =>
          let to_sync := build_to_sync (pl_songs dst_playlist) dst_songs [] in
          let w := add_songs_to_playlist w dst_playlist to_sync in
          let w := if like_all
                   then add_likes w (List.filter (fun s => negb (contains dst_likes s)) to_sync)
                   else w in
          (dst_playlists, w)
      end
  end.

(** The source playlists that reach the loop, and the destination
    playlists it starts with. *)
Definition filter_playlists (src_playlists : list Playlist) (dst_playlists : list Playlist)
    (skip_playlists : list string) (dst_owner : string) : list Playlist * list Playlist :=
  let src := List.filter (fun p => negb (skip_listed to_lowercase skip_playlists p)) src_playlists in
  let '(dst, src) := owner_retain dst_owner dst_playlists src in
  (List.filter (fun p => negb (fixed_skipped p) && negb (bool_decide (pl_songs p = []))) src, dst).

(** [synchronize_playlists]: every client call succeeds; the debug
    artifacts and statistics are not modelled. *)
Definition synchronize_playlists (src_playlists : list Playlist) (like_all : bool)
    (skip_playlists : list string) (dst_owner : string) (w : World) : World :=
  let dst_likes := if like_all then remote_likes w else [] in
  let '(todo, dst) := filter_playlists src_playlists (remote_playlists w) skip_playlists dst_owner in
  snd (fold_left (fun st p => sync_playlist like_all dst_likes p st) todo (dst, w)).

End Orchestrator.

End Sync.

(* ------------------------------------------------------------------------- *)
(** * Concrete inputs used by the properties below *)

Module PaginationInputs.

Import Pagination.

(** One non-empty page, then an empty page echoing the same token, then a
    last page. *)
Definition pages_with_empty_page (n : nat) : Page nat :=
  match n with
  | 0 => Build_Page [1] (Some "ctoken")
  | 1 => Build_Page [] (Some "ctoken")
  | _ => Build_Page [2] None
  end.

(** A server echoing a stale token with empty pages forever. *)
Definition pages_echoing_stale_token (n : nat) : Page nat :=
  match n with
  | 0 => Build_Page [1] (Some "ctoken")
  | _ => Build_Page [] (Some "ctoken")
  end.

(** An offset listing claiming 300 items whose second page is empty. *)
Definition offset_pages (offset : nat) : list nat :=
  match offset with
  | 0 => [1]
  | 100 => []
  | _ => [2]
  end.

End PaginationInputs.

Module SearchInputs.

(** A source song with a known ISRC. *)
Definition song_with_isrc : Song :=
  {| song_source := Spotify; song_id := "sp1"; song_sid := None; song_isrc := Some "USRC17607839";
     song_name := "Road Trip"; song_artists := [{| artist_id := None; artist_name := "Band" |}];
     song_album := None; song_duration_ms := 200 |}.

(** A query builder giving the song's name and then "name artist". *)
Definition name_queries (s : Song) : list string :=
  [song_name s;
   String.append (song_name s)
     (String.append " " (String.concat " " (map artist_name (song_artists s))))].

End SearchInputs.

Module AddSongsInputs.

Definition empty_playlist : Playlist :=
  {| pl_id := "PL1"; pl_name := "Road Trip"; pl_songs := []; pl_owner := Some "me" |}.

End AddSongsInputs.

Module SyncInputs.

Import Sync.

Definition src_song (i : string) : Song :=
  {| song_source := Spotify; song_id := i; song_sid := None; song_isrc := None;
     song_name := i; song_artists := []; song_album := None; song_duration_ms := 0 |}.
Definition dst_song (i : string) : Song :=
  {| song_source := YtMusic; song_id := i; song_sid := None; song_isrc := None;
     song_name := i; song_artists := []; song_album := None; song_duration_ms := 0 |}.

(** Song equality on (source, id), and a destination catalogue where every
    source song has a match. *)
Definition song_eq_key : Song -> Song -> bool := song_key_eqb.
Definition search_by_id (s : Song) : option Song := Some (dst_song (song_id s)).

Definition playlist (name : string) (songs : list Song) : Playlist :=
  {| pl_id := name; pl_name := name; pl_songs := songs; pl_owner := None |}.

Definition empty_world : World :=
  {| remote_playlists := []; remote_likes := []; mutations := [];
     pacing := pacing_init; cooldowns := []; next_id := 0 |}.

(** Runs against a YtMusic destination of account "me", with the ASCII
    case mapping (the skip-lists of these runs are empty). *)
Definition run (src : list Playlist) (skip : list string) (w : World) : World :=
  synchronize_playlists YtMusic song_eq_key search_by_id "me" to_lowercase src false skip "me" w.

Definition road_trip : list Playlist := [playlist "Road Trip" [src_song "a"]].

Definition one_song_run : list Playlist := [playlist "A" [src_song "x"]].
Definition many_songs_run : list Playlist :=
  [playlist "B" (map (fun n => src_song (pretty (N.of_nat n))) (seq 0 199))].


(** Two source playlists named "Foo"; the destination has a "Foo" owned by
    another account. *)
Definition two_foos : list Playlist := [playlist "Foo" [src_song "a"]; playlist "Foo" [src_song "b"]].
Definition foreign_foo_world : World :=
  {| remote_playlists := [{| pl_id := "X"; pl_name := "Foo"; pl_songs := []; pl_owner := Some "other" |}];
     remote_likes := []; mutations := []; pacing := pacing_init; cooldowns := []; next_id := 0 |}.

End SyncInputs.

(* ------------------------------------------------------------------------- *)
(** * Rust string operations, on strings as sequences of Unicode scalar values *)

Module RStr.

(** A Rust [str] as its sequence of chars (Unicode scalar values). *)
Definition rstr := list N.

(** An ASCII literal. *)
Definition lit (s : string) : rstr := map N_of_ascii (list_ascii_of_string s).

(** [char::is_whitespace]: the chars with the Unicode White_Space property. *)
Definition is_whitespace (c : N) : bool :=
  (((9 <=? c) && (c <=? 13)) || (c =? 32) || (c =? 133) || (c =? 160) || (c =? 5760)
  || ((8192 <=? c) && (c <=? 8202)) || (c =? 8232) || (c =? 8233) || (c =? 8239)
  || (c =? 8287) || (c =? 12288))%N.

Fixpoint trim_start (s : rstr) : rstr :=
  match s with
  | c :: s' => if is_whitespace c then trim_start s' else s
  | [] => []
  end.

Definition trim_end (s : rstr) : rstr := rev (trim_start (rev s)).

(** [str::trim]. *)
Definition trim (s : rstr) : rstr := trim_end (trim_start s).

(** [str::split(c)] for a char [c]: always at least one piece. *)
Fixpoint split_char (sep : N) (s : rstr) : list rstr :=
  match s with
  | [] => [[]]
  | c :: s' =>
      if (c =? sep)%N then [] :: split_char sep s'
      else match split_char sep s' with
           | p :: ps => (c :: p) :: ps
           | [] => [[c]]
           end
  end.

(** [str::split_once(c)] for a char [c]. *)
Fixpoint split_once (sep : N) (s : rstr) : option (rstr * rstr) :=
  match s with
  | [] => None
  | c :: s' =>
      if (c =? sep)%N then Some ([], s')
      else match split_once sep s' with
           | Some (a, b) => Some (c :: a, b)
           | None => None
           end
  end.

(** [str::starts_with]. *)
Fixpoint starts_with (p s : rstr) : bool :=
  match p, s with
  | [], _ => true
  | c :: p', d :: s' => (c =? d)%N && starts_with p' s'
  | _ :: _, [] => false
  end.

(** [str::ends_with]. *)
Definition ends_with (p s : rstr) : bool := starts_with (rev p) (rev s).

(** [str::split_once(pat)] (and [splitn(2, pat)]) for a string pattern. *)
Fixpoint split_once_str (pat s : rstr) : option (rstr * rstr) :=
  if starts_with pat s then Some ([], drop (length pat) s)
  else match s with
       | [] => None
       | c :: s' =>
           match split_once_str pat s' with
           | Some (a, b) => Some (c :: a, b)
           | None => None
           end
       end.

(** [str::split(pat)] for a non-empty string pattern: the pieces between
    the non-overlapping occurrences of [pat], found left to right. *)
Fixpoint split_str_fuel (fuel : nat) (pat s : rstr) : list rstr :=
  match fuel with
  | O => [s]
  | S fuel' =>
      match s with
      | [] => [[]]
      | c :: s' =>
          if starts_with pat s then [] :: split_str_fuel fuel' pat (drop (length pat) s)
          else match split_str_fuel fuel' pat s' with
               | p :: ps => (c :: p) :: ps
               | [] => [[c]]
               end
      end
  end.

Definition split_str (pat s : rstr) : list rstr := split_str_fuel (S (length s)) pat s.

(** [slice::join(sep)]. *)
Fixpoint join (sep : rstr) (l : list rstr) : rstr :=
  match l with
  | [] => []
  | [x] => x
  | x :: l' => x ++ sep ++ join sep l'
  end.

Definition rstr_eqb (a b : rstr) : bool := bool_decide (a = b).

(** [str::trim_start_matches(c)] for a char [c]. *)
Fixpoint trim_start_matches_char (c : N) (s : rstr) : rstr :=
  match s with
  | d :: s' => if (d =? c)%N then trim_start_matches_char c s' else s
  | [] => []
  end.

(** [str::trim_end_matches(c)] for a char [c]. *)
Definition trim_end_matches_char (c : N) (s : rstr) : rstr :=
  rev (trim_start_matches_char c (rev s)).

Fixpoint trim_start_matches_fuel (fuel : nat) (pat s : rstr) : rstr :=
  match fuel with
  | O => s
  | S fuel' =>
      if starts_with pat s then trim_start_matches_fuel fuel' pat (drop (length pat) s) else s
  end.

(** [str::trim_end_matches(pat)] for a non-empty string pattern: the
    occurrences of [pat] at the end are removed one by one; each removal
    shortens the string, so [length s + 1] rounds are enough. *)
Definition trim_end_matches_str (pat s : rstr) : rstr :=
  rev (trim_start_matches_fuel (S (length s)) (rev pat) (rev s)).

Fixpoint replace_fuel (fuel : nat) (pat to s : rstr) : rstr :=
  match fuel with
  | O => s
  | S fuel' =>
      match s with
      | [] => []
      | c :: s' =>
          if starts_with pat s then to ++ replace_fuel fuel' pat to (drop (length pat) s)
          else c :: replace_fuel fuel' pat to s'
      end
  end.

(** [str::replace(pat, to)] for a non-empty string pattern: the
    non-overlapping occurrences of [pat], found left to right, replaced by
    [to]. *)
Definition replace_str (pat to s : rstr) : rstr := replace_fuel (S (length s)) pat to s.

End RStr.

(* ------------------------------------------------------------------------- *)
(** * yt_music/mod.rs: browser cookies *)

Module Cookies.

Import RStr.

(** [YtMusicApi::ensure_socs_cookie]. *)
Definition has_socs (cookie_str : rstr) : bool :=
  existsb (fun pair => starts_with (lit "SOCS=") (trim pair)) (split_char 59 cookie_str).

Definition ensure_socs_cookie (cookie_str : rstr) : rstr :=
  if has_socs cookie_str then cookie_str
  else if bool_decide (trim cookie_str = []) then lit "SOCS=CAI"
  else cookie_str ++ lit "; SOCS=CAI".

(** [YtMusicApi::extract_sapisid]; [None] is the "Missing
    '__Secure-3PAPISID' cookie" error. *)
Fixpoint extract_sapisid_from (pairs : list rstr) : option rstr :=
  match pairs with
  | [] => None
  | cookie_pair :: rest =>
      let cookie_pair := trim cookie_pair in
      match split_once 61 cookie_pair with
      | Some (key, value) =>
          if rstr_eqb (trim key) (lit "__Secure-3PAPISID") then Some (trim value)
          else extract_sapisid_from rest
      | None => extract_sapisid_from rest
      end
  end.

Definition extract_sapisid (cookie_str : rstr) : option rstr :=
  extract_sapisid_from (split_char 59 cookie_str).

(** The [cookie_map] of [update_browser_cookies]. *)
Definition cookie_map := gmap rstr rstr.

(** "Parse existing cookies into map". *)
Definition parse_existing_cookies (existing_cookies : rstr) : cookie_map :=
  fold_left (fun cookie_map cookie_pair =>
               match split_once 61 cookie_pair with
               | Some (key, value) => <[trim key := trim value]> cookie_map
               | None => cookie_map
               end)
    (split_str (lit "; ") existing_cookies) ∅.

(** One iteration of "Update with new cookies from response": the map and
    [sapisid_updated]. *)
Definition apply_set_cookie (st : cookie_map * bool) (set_cookie : rstr) : cookie_map * bool :=
  let '(cookie_map, sapisid_updated) := st in
  match split_once 59 set_cookie with
  | Some (name_value, _) =>
      match split_once 61 name_value with
      | Some (name, value) =>
          let name := trim name in
          let value := trim value in
          if negb (bool_decide (value = [])) && negb (rstr_eqb value (lit "deleted"))
          then (<[name := value]> cookie_map,
                sapisid_updated || rstr_eqb name (lit "__Secure-3PAPISID"))
          else (delete name cookie_map, sapisid_updated)
      | None => (cookie_map, sapisid_updated)
      end
  | None => (cookie_map, sapisid_updated)
  end.

Definition update_cookie_map (existing_cookies : rstr) (set_cookies : list rstr)
  : cookie_map * bool :=
  fold_left apply_set_cookie set_cookies (parse_existing_cookies existing_cookies, false).

(** "Rebuild cookie string" and "Ensure SOCS=CAI is present", for the
    iteration order [entries] of the map. *)
Definition rebuild_cookie_string (entries : list (rstr * rstr)) : rstr :=
  ensure_socs_cookie (join (lit "; ") (map (fun '(k, v) => k ++ lit "=" ++ v) entries)).

Section Update.

(** The iteration order of [HashMap::iter] on a map: some listing of its
    entries. *)
Variable order : cookie_map -> list (rstr * rstr).

(** The cookie part of [update_browser_cookies] with browser
    authentication. [existing_cookies] is the "cookie" entry of the headers
    file ("" when absent). [None]: no Set-Cookie header, nothing changes.
    Otherwise the new cookie string and, when [sapisid_updated], the
    result of [extract_sapisid] on it ([Some None] is the error that call
    returns). Reading and writing the headers file and rebuilding the
    client are not modelled. *)
Definition update_browser_cookies (existing_cookies : rstr) (set_cookies : list rstr)
  : option (rstr * option (option rstr)) :=
  match set_cookies with
  | [] => None
  | _ =>
      let '(cookie_map, sapisid_updated) := update_cookie_map existing_cookies set_cookies in
      let cookie_string := rebuild_cookie_string (order cookie_map) in
      Some (cookie_string, if sapisid_updated then Some (extract_sapisid cookie_string) else None)
  end.

End Update.

(** Name of the cookie a Set-Cookie header sets or removes, when
    [apply_set_cookie] acts on it. *)
Definition set_cookie_name (set_cookie : rstr) : option rstr :=
  match split_once 59 set_cookie with
  | Some (name_value, _) =>
      match split_once 61 name_value with
      | Some (name, _) => Some (trim name)
      | None => None
      end
  | None => None
  end.

End Cookies.

(* ------------------------------------------------------------------------- *)
(** * yt_music/mod.rs: the browser headers file *)

Module Headers.

Import RStr.

(** [str::splitn(2, pat)] collected into a [Vec]. *)
Definition splitn2 (pat s : rstr) : list rstr :=
  match split_once_str pat s with
  | Some (a, b) => [a; b]
  | None => [s]
  end.

Section Parse.

(** [str::to_lowercase] (Unicode case mapping). *)
Variable to_lowercase : rstr -> rstr.

(** One iteration of the loop of [YtMusicApi::parse_and_save_headers], on
    [user_headers] and [chrome_remembered_key]. *)
Definition header_line (st : gmap rstr rstr * rstr) (content : rstr) : gmap rstr rstr * rstr :=
  let '(user_headers, chrome_remembered_key) := st in
  let parts := splitn2 (lit ": ") content in
  match parts with
  | [] => st
  | p0 :: rest =>
      if starts_with (lit ":") p0 then st
      else if ends_with (lit ":") p0 then (user_headers, trim_end_matches_char 58 p0)
      else if length parts =? 1 then
        if negb (bool_decide (chrome_remembered_key = [])) then
          (<[chrome_remembered_key := p0]> user_headers, [])
        else st
      else if length parts =? 2 then
        (<[to_lowercase p0 := nth 0 rest []]> user_headers, chrome_remembered_key)
      else st
  end.

(** [user_headers] after the loop. *)
Definition collect_headers (contents : list rstr) : gmap rstr rstr :=
  (fold_left header_line contents (∅, [])).1.

Definition required_headers : list rstr := [lit "cookie"; lit "x-goog-authuser"].

Definition ignore_headers : list rstr := [lit "host"; lit "content-length"; lit "accept-encoding"].

Definition default_user_agent : rstr :=
  lit "Mozilla/5.0 (Windows NT 10.0; Win64; x64; rv:88.0) Gecko/20100101 Firefox/88.0".

(** [YtMusicApi::parse_and_save_headers]: [inl missing_headers] is the
    error for missing required entries, [inr user_headers] the map that is
    serialized with [serde_json::to_string_pretty]; the file write follows
    in [parse_and_save_headers_file]. *)
Definition parse_and_save_headers (contents : list rstr) : list rstr + gmap rstr rstr :=
  let user_headers := collect_headers contents in
  let missing_headers :=
    List.filter (fun key => bool_decide (user_headers !! key = None)) required_headers in
  match missing_headers with
  | _ :: _ => inl missing_headers
  | [] =>
      let user_headers := fold_left (fun m key => delete key m) ignore_headers user_headers in
      let user_headers :=
        filter (fun kv : rstr * rstr => starts_with (lit "sec-") kv.1 = false) user_headers in
      let user_headers := <[lit "user-agent" := default_user_agent]> user_headers in
      let user_headers := <[lit "accept" := lit "*/*"]> user_headers in
      let user_headers := <[lit "accept-language" := lit "en-US,en;q=0.5"]> user_headers in
      let user_headers := <[lit "content-type" := lit "application/json"]> user_headers in
      let user_headers :=
        <[lit "x-goog-visitor-id" := default [] (user_headers !! lit "x-goog-visitor-id")]>
          user_headers in
      inr user_headers
  end.

(** The errors [YtMusicApi::parse_and_save_headers] can return: the
    missing required entries, or a failed [std::fs::write]. The
    [serde_json::to_string_pretty] of a [HashMap<String, String>] does not
    fail. *)
Inductive HeadersError := MissingHeaders (missing : list rstr) | WriteError.

(** [YtMusicApi::parse_and_save_headers] with its file write: [filepath] is
    the optional path, [write_ok] whether [std::fs::write] succeeds. *)
Definition parse_and_save_headers_file (filepath : option rstr) (write_ok : bool)
    (contents : list rstr) : HeadersError + gmap rstr rstr :=
  match parse_and_save_headers contents with
  | inl missing => inl (MissingHeaders missing)
  | inr user_headers =>
      match filepath with
      | Some _ => if write_ok then inr user_headers else inl WriteError
      | None => inr user_headers
      end
  end.

End Parse.

(** The keys [parse_and_save_headers] always sets. *)
Definition default_headers : list rstr :=
  [lit "user-agent"; lit "accept"; lit "accept-language"; lit "content-type";
   lit "x-goog-visitor-id"].

(** ASCII case mapping, a [to_lowercase] for concrete inputs. *)
Definition ascii_lowercase (s : rstr) : rstr :=
  map (fun c => if ((65 <=? c) && (c <=? 90))%N then (c + 32)%N else c) s.

End Headers.

(* ------------------------------------------------------------------------- *)
(** * plex/mod.rs *)

Module PlexApi.

Import RStr AddSongs Sync.

(** The bytes [urlencoding::encode] copies as they are: ASCII
    alphanumerics and [- . _ ~]. *)
Definition is_unreserved (b : N) : bool :=
  (((48 <=? b) && (b <=? 57)) || ((65 <=? b) && (b <=? 90)) || ((97 <=? b) && (b <=? 122))
   || (b =? 45) || (b =? 46) || (b =? 95) || (b =? 126))%N.

(** [urlencoding]'s [to_hex_digit]: upper-case hexadecimal. *)
Definition to_hex_digit (digit : N) : N :=
  if (digit <? 10)%N then (48 + digit)%N else (65 - 10 + digit)%N.

Definition encode_byte (b : N) : rstr :=
  if is_unreserved b then [b]
  else [37%N; to_hex_digit (N.shiftr b 4); to_hex_digit (N.land b 15)].

(** [urlencoding::encode] on the UTF-8 bytes [data] of its argument: every
    other byte becomes "%XY". *)
Definition encode (data : list N) : rstr := flat_map encode_byte data.

(** [PlexApi::encode_query] on the UTF-8 bytes of [query]. *)
Definition encode_query (query : list N) : rstr :=
  let encoded := encode query in
  replace_str (lit "%29") []
    (trim_end_matches_str (lit "%3F") (trim_end_matches_str (lit "%2F") encoded)).

(** The fields of [model::PlexPlaylist] the client reads. *)
Record PlexPlaylist := {
  rating_key : string;
  title : string;
  playlist_subtype : string
}.

(** [TryInto<Playlist> for PlexPlaylist]. *)
Definition plex_playlist_into (p : PlexPlaylist) : Playlist :=
  {| pl_id := rating_key p; pl_name := title p; pl_songs := []; pl_owner := None |}.

(** [PlexApi::get_playlists_info] on the playlists of the response: the
    audio ones, converted, with owner [user_id]. *)
Definition get_playlists_info (user_id : string) (playlists : list PlexPlaylist) : list Playlist :=
  let filtered := List.filter (fun p => str_eqb (playlist_subtype p) "audio") playlists in
  let mid_playlists := map plex_playlist_into filtered in
  map (fun p => {| pl_id := pl_id p; pl_name := pl_name p; pl_songs := pl_songs p;
                   pl_owner := Some user_id |}) mid_playlists.

(** The [uri] query values of the PUT requests [PlexApi::add_songs_to_playlist]
    sends, in order, when all of them succeed: one per chunk of 5 songs,
    ["{uri_root}/library/metadata/{rating_keys}"]. *)
Definition plex_add_songs_requests (uri_root : string) (songs : list Song) : list string :=
  map (fun chunk => (uri_root ++ "/library/metadata/" ++ join_comma (map song_id chunk))%string)
    (chunks 5 songs).

End PlexApi.

(* ------------------------------------------------------------------------- *)
(** * tidal/mod.rs: [TidalApi::add_likes] *)

Module TidalLikes.

Import AddSongs.

(** The [trackIds] form values of the POST requests [TidalApi::add_likes]
    sends, in order, when all of them succeed: none for no song, otherwise
    one per chunk of 100 track ids, joined with ",". *)
Definition tidal_add_likes_requests (songs : list Song) : list string :=
  match songs with
  | [] => []
  | _ =>
      let tracks := map song_id songs in
      map join_comma (chunks 100 tracks)
  end.

End TidalLikes.

(* ------------------------------------------------------------------------- *)
(** * yt_music: playlist ids, the playlist listing, song removal and the
    sign-in check *)

Module YtPlaylists.

Import RStr Duration.

(** [str::strip_prefix]. *)
Definition strip_prefix (prefix s : rstr) : option rstr :=
  if starts_with prefix s then Some (drop (length prefix) s) else None.

(** [YtMusicApi::clean_playlist_id]. *)
Definition clean_playlist_id (id : rstr) : rstr :=
  match strip_prefix (lit "VL") id with
  | Some id' => id'
  | None => id
  end.

(** The [browseId] of the request [YtMusicApi::get_playlist_songs] sends
    for the playlist [id]. *)
Definition playlist_browse_id (id : rstr) : rstr :=
  if starts_with (lit "VL") id then id else lit "VL" ++ id.

(** What [TryInto<Playlists> for YtMusicResponse] reads from one entry of
    [get_mtrirs()]: [get_id], [get_name] and [get_owner]. *)
Record Mtrir := {
  mtrir_id : option rstr;
  mtrir_name : option rstr;
  mtrir_owner : option rstr
}.

(** The loop of the conversion over the entries after the first two; each
    playlist is given by its [(id, name, owner)], its songs being empty.
    A missing field returns the error. *)
Fixpoint mtrirs_to_playlists (ms : list Mtrir) : Res (list (rstr * rstr * rstr)) :=
  match ms with
  | [] => ROk []
  | m :: rest =>
      match mtrir_id m with
      | None => RErr
      | Some id =>
          let id := clean_playlist_id id in
          match mtrir_name m with
          | None => RErr
          | Some name =>
              match mtrir_owner m with
              | None => RErr
              | Some owner =>
                  match mtrirs_to_playlists rest with
                  | ROk ps => ROk ((id, trim name, trim owner) :: ps)
                  | RErr => RErr
                  | RPanic => RPanic
                  end
              end
          end
      end
  end.

(** [TryInto<Playlists> for YtMusicResponse]; [mtrirs] is [get_mtrirs()],
    and [.skip(2)] ignores the "New playlist" and "Your Likes" entries. *)
Definition yt_playlists_try_into (mtrirs : option (list Mtrir))
  : Res (list (rstr * rstr * rstr)) :=
  match mtrirs with
  | None => RErr
  | Some ms => mtrirs_to_playlists (skipn 2 ms)
  end.

(** The [(setVideoId, removedVideoId)] of the actions of
    [YtMusicApi::remove_songs_from_playlist]; [None] when a song has no
    [sid], where [ok_or(...)?] returns the error. *)
Fixpoint remove_actions (songs : list Song) : option (list (string * string)) :=
  match songs with
  | [] => Some []
  | song :: rest =>
      match song_sid song with
      | None => None
      | Some sid =>
          match remove_actions rest with
          | Some actions => Some ((sid, song_id song) :: actions)
          | None => None
          end
      end
  end.

Section Remove.

(** [PartialEq for Song]. *)
Variable song_eq : Song -> Song -> bool.

(** [YtMusicApi::remove_songs_from_playlist]: the playlist value after the
    call, the actions of the [browse/edit_playlist] request when it is
    sent, and the result; [remote_ok] is whether the request succeeds and
    its answer reports success. *)
Definition yt_remove_songs (remote_ok : bool) (playlist : Playlist) (songs : list Song)
  : Playlist * option (list (string * string)) * Res unit :=
  let playlist :=
    fold_left (fun p song =>
                 set_songs p (List.filter (fun s => negb (song_eq s song)) (pl_songs p)))
              songs playlist in
  match remove_actions songs with
  | None => (playlist, None, RErr)
  | Some actions => (playlist, Some actions, if remote_ok then ROk tt else RErr)
  end.

End Remove.

(** [str::contains] for a string pattern. *)
Fixpoint contains_str (pat s : rstr) : bool :=
  starts_with pat s || match s with [] => false | _ :: s' => contains_str pat s' end.

(** ["name"] with its double quotes. *)
Definition quoted (s : string) : rstr := [34%N] ++ lit s ++ [34%N].

(** The raw-string patterns of [check_authentication_errors]. *)
Definition logged_in_0 : rstr := quoted "logged_in" ++ lit ":" ++ [34%N] ++ lit "0".
Definition logged_in_0_sp : rstr := quoted "logged_in" ++ lit ": " ++ [34%N] ++ lit "0".
Definition key_logged_in : rstr := quoted "key" ++ lit ":" ++ quoted "logged_in".
Definition key_logged_in_sp : rstr := quoted "key" ++ lit ": " ++ quoted "logged_in".
Definition value_0 : rstr := quoted "value" ++ lit ":" ++ quoted "0".
Definition value_0_sp : rstr := quoted "value" ++ lit ": " ++ quoted "0".

(** [is_not_logged_in] of [YtMusicApi::check_authentication_errors]. *)
Definition is_not_logged_in (text : rstr) : bool :=
  contains_str logged_in_0 text || contains_str logged_in_0_sp text
  || ((contains_str key_logged_in text || contains_str key_logged_in_sp text)
      && (contains_str value_0 text || contains_str value_0_sp text)).

(** [YtMusicApi::check_authentication_errors]: an error for both
    authentication types (only the message differs). *)
Definition check_authentication_errors (text : rstr) : Res unit :=
  if is_not_logged_in text then RErr else ROk tt.

End YtPlaylists.

(* ------------------------------------------------------------------------- *)
(** * sync.rs: [synchronize] *)

Module SyncTop.

Import Duration Sync.

Section Likes.

(** [PartialEq for Song]. *)
Variable song_eq : Song -> Song -> bool.
(** [dst_api.search_song], on a fixed destination catalogue. *)
Variable search_song : Song -> option Song.

(** The loop of the [config.sync_likes] block: the songs pushed onto
    [new_likes]. *)
Fixpoint new_likes_loop (dst_likes src_likes : list Song) : list Song :=
  match src_likes with
  | [] => []
  | src_like :: rest =>
      if contains song_eq dst_likes src_like then new_likes_loop dst_likes rest
      else match search_song src_like with
           | None => new_likes_loop dst_likes rest
           | Some song =>
               if contains song_eq dst_likes song then new_likes_loop dst_likes rest
               else song :: new_likes_loop dst_likes rest
           end
  end.

(** The [config.sync_likes] block; [dst_api.get_likes()] answers the
    destination's likes. *)
Definition sync_likes_block (src_likes : list Song) (w : World) : World :=
  let dst_likes := remote_likes w in
  add_likes w (new_likes_loop dst_likes src_likes).

End Likes.

(** The guard at the start of [synchronize]: [true] when it returns the
    "different countries" error. *)
Definition country_mismatch (diff_country : bool) (src_type dst_type : MusicApiType)
    (src_country dst_country : string) : bool :=
  negb diff_country
  && negb (MusicApiType_eqb src_type YtMusic) && negb (MusicApiType_eqb dst_type YtMusic)
  && negb (MusicApiType_eqb src_type Plex) && negb (MusicApiType_eqb dst_type Plex)
  && negb (str_eqb src_country dst_country).

(** [synchronize]: every client call succeeds; [src_playlists] and
    [src_likes] are what the source answers. *)
Definition synchronize (dst_type : MusicApiType) (song_eq : Song -> Song -> bool)
    (search_song : Song -> option Song) (dst_account : string) (to_lowercase : string -> string)
    (diff_country sync_likes like_all : bool) (src_type : MusicApiType)
    (src_country dst_country : string) (src_playlists : list Playlist) (src_likes : list Song)
    (skip_playlists : list string) (dst_owner : string) (w : World) : Res World :=
  if country_mismatch diff_country src_type dst_type src_country dst_country then RErr
  else
    let w := synchronize_playlists dst_type song_eq search_song dst_account to_lowercase
               src_playlists like_all skip_playlists dst_owner w in
    ROk (if sync_likes then sync_likes_block song_eq search_song src_likes w else w).

End SyncTop.

(* ========================================================================= *)
(** * Properties *)

(* ------------------------------------------------------------------------- *)
(** ** parse_duration *)

Module DurationFacts.

Import Duration.

Example parse_duration_ex1 : parse_duration "3:25" = ROk 205000%N.
Proof. reflexivity. Qed.
Example parse_duration_ex2 : parse_duration "1:02:03" = ROk 3723000%N.
Proof. reflexivity. Qed.
Example parse_duration_ex3 : parse_duration "1:2:3:4" = RPanic.
Proof. reflexivity. Qed.

Lemma parse_loop_ok (parts : list string) (vs : list N) (i : nat) (seconds : N) :
  Forall2 (fun p v => parse_usize p = Some v) parts vs ->
  i + length parts <= 3 ->
  (seconds + weighted i vs <= usize_max)%N ->
  parse_loop i parts seconds = ROk (seconds + weighted i vs)%N.
Proof.
  intros HF. revert i seconds.
  induction HF as [|p v parts' vs' Hp HF IH]; intros i seconds Hlen Hbound;
    cbn [parse_loop weighted length] in *.
  - f_equal. lia.
  - rewrite Hp.
    assert (Hm : multipliers !! i = Some (nth i multipliers 0%N)).
    { destruct i as [|[|[|i]]]; [reflexivity..|lia]. }
    rewrite Hm. unfold usize_mul, usize_add.
    destruct (N.leb_spec (v * nth i multipliers 0%N) usize_max); [|lia].
    destruct (N.leb_spec (seconds + v * nth i multipliers 0%N) usize_max); [|lia].
    rewrite IH by lia. f_equal. lia.
Qed.

Lemma parse_loop_not_ok (parts : list string) (i : nat) (seconds n : N) :
  i <= 3 -> 3 < i + length parts -> parse_loop i parts seconds <> ROk n.
Proof.
  revert i seconds.
  induction parts as [|p parts IH]; intros i seconds Hi Hlen; simpl in *; [lia|].
  destruct (parse_usize p) as [v|]; [|discriminate].
  destruct (decide (i = 3)) as [->|Hne]; [discriminate|].
  assert (Hm : multipliers !! i = Some (nth i multipliers 0%N)).
  { destruct i as [|[|[|i]]]; [reflexivity..|lia]. }
  rewrite Hm. unfold usize_mul, usize_add.
  destruct (_ <=? _)%N; [|discriminate].
  destruct (_ <=? _)%N; [|discriminate].
  apply IH; lia.
Qed.

Lemma parse_loop_err (parts : list string) (vs : list N) (p : string) (rest : list string)
    (i : nat) (seconds : N) :
  Forall2 (fun p v => parse_usize p = Some v) parts vs ->
  i + length parts <= 3 ->
  (seconds + weighted i vs <= usize_max)%N ->
  parse_usize p = None ->
  parse_loop i (parts ++ p :: rest) seconds = RErr.
Proof.
  intros HF. revert i seconds.
  induction HF as [|q v parts' vs' Hq HF IH]; intros i seconds Hlen Hbound Hp;
    cbn [parse_loop weighted length app] in *.
  - by rewrite Hp.
  - rewrite Hq.
    assert (Hm : multipliers !! i = Some (nth i multipliers 0%N)).
    { destruct i as [|[|[|i]]]; [reflexivity..|lia]. }
    rewrite Hm. unfold usize_mul, usize_add.
    destruct (N.leb_spec (v * nth i multipliers 0%N) usize_max); [|lia].
    destruct (N.leb_spec (seconds + v * nth i multipliers 0%N) usize_max); [|lia].
    apply IH; [lia|lia|exact Hp].
Qed.

(** C10 (as stated it fails): an input with four parts whose last part is not
    a number is an error, not a panic. *)
Lemma parse_duration_four_parts_err : parse_duration "1:2:3:x" = RErr.
Proof. reflexivity. Qed.

(** C10 (amended): with at most three ':'-separated parts that all parse as
    [usize], [parse_duration] returns the milliseconds given by the
    multipliers 1, 60 and 3600 (when they fit in [usize]); with four or
    more parts it never returns [Ok], and it panics when the last four
    parts all parse. Scanning the parts right to left, a part that does not
    parse as [usize] makes it return an error, as long as the parts before
    it parse and their weighted sum fits in [usize] (so nothing panicked
    first); in particular with four or more parts, one of the last four
    failing to parse first gives an error. *)
Theorem parse_duration_spec :
  (forall (s : string) (vs : list N),
     length (rsplit_colon s) <= 3 ->
     Forall2 (fun p v => parse_usize p = Some v) (rsplit_colon s) vs ->
     (weighted 0 vs * 1000 <= usize_max)%N ->
     parse_duration s = ROk (weighted 0 vs * 1000)%N) /\
  (forall (s : string) (n : N),
     4 <= length (rsplit_colon s) -> parse_duration s <> ROk n) /\
  (forall (s p0 p1 p2 p3 : string) (rest : list string) (v0 v1 v2 v3 : N),
     rsplit_colon s = p0 :: p1 :: p2 :: p3 :: rest ->
     parse_usize p0 = Some v0 -> parse_usize p1 = Some v1 ->
     parse_usize p2 = Some v2 -> parse_usize p3 = Some v3 ->
     parse_duration s = RPanic) /\
  (forall (s : string) (parts : list string) (vs : list N) (p : string) (rest : list string),
     rsplit_colon s = parts ++ p :: rest ->
     length parts <= 3 ->
     Forall2 (fun p v => parse_usize p = Some v) parts vs ->
     (weighted 0 vs <= usize_max)%N ->
     parse_usize p = None ->
     parse_duration s = RErr).
Proof.
  split; [|split; [|split]].
  - intros s vs Hlen HF Hbound. unfold parse_duration.
    rewrite (parse_loop_ok _ vs 0 0 HF); [|rewrite ?Nat.add_0_l; lia|rewrite ?N.add_0_l; lia].
    unfold usize_mul. rewrite N.add_0_l.
    destruct (N.leb_spec (weighted 0 vs * 1000) usize_max); [reflexivity|lia].
  - intros s n Hlen Heq. unfold parse_duration in Heq.
    destruct (parse_loop 0 (rsplit_colon s) 0) as [m| |] eqn:E; try discriminate.
    apply (parse_loop_not_ok (rsplit_colon s) 0 0 m); [lia|rewrite Nat.add_0_l; lia|exact E].
  - intros s p0 p1 p2 p3 rest v0 v1 v2 v3 Hs H0 H1 H2 H3.
    unfold parse_duration. rewrite Hs. simpl. rewrite H0.
    simpl. unfold usize_mul, usize_add.
    destruct (_ <=? _)%N; [|reflexivity]. destruct (_ <=? _)%N; [|reflexivity].
    simpl. rewrite H1. simpl.
    destruct (_ <=? _)%N; [|reflexivity]. destruct (_ <=? _)%N; [|reflexivity].
    simpl. rewrite H2. simpl.
    destruct (_ <=? _)%N; [|reflexivity]. destruct (_ <=? _)%N; [|reflexivity].
    simpl. rewrite H3. reflexivity.
  - intros s parts vs p rest Hs Hlen HF Hbound Hp. unfold parse_duration. rewrite Hs.
    rewrite (parse_loop_err parts vs p rest 0 0 HF); [reflexivity|lia|lia|exact Hp].
Qed.

Lemma parse_duration_spec_witness :
  parse_duration "1:02:03" = ROk 3723000%N /\ parse_duration "4:1:02:03" = RPanic /\
  parse_duration "x:1:02:03" = RErr.
Proof.
  split; [|split].
  - apply (proj1 parse_duration_spec "1:02:03" [3%N; 2%N; 1%N]).
    + simpl. lia.
    + repeat constructor.
    + vm_compute. discriminate.
  - apply (proj1 (proj2 (proj2 parse_duration_spec)) "4:1:02:03" "03" "02" "1" "4" [] 3%N 2%N 1%N 4%N);
      reflexivity.
  - apply (proj2 (proj2 (proj2 parse_duration_spec)) "x:1:02:03" ["03"; "02"; "1"] [3%N; 2%N; 1%N] "x" []).
    + reflexivity.
    + simpl. lia.
    + repeat constructor.
    + vm_compute. discriminate.
    + reflexivity.
Defined.

End DurationFacts.

(* ------------------------------------------------------------------------- *)
(** ** The retry loop of [make_request] *)

Module RetryFacts.

Import Retry.

Example make_request_ex :
  make_request [rate_limited_429; rate_limited_429; ok_200] = (ReqOk, [3; 9]).
Proof. reflexivity. Qed.

(** A response the loop treats as a rate limit. *)
Definition rate_limit_response (r : HttpResponse) : Prop :=
  is_rate_limited r = true /\ text_auth_failure r = false.

(** A successful response. *)
Definition success_response (r : HttpResponse) : Prop :=
  text_auth_failure r = false /\ (status r < 400)%N.

Lemma backoff_small (j : nat) : j < 5 -> Nat.min (3 ^ (j + 1)) MAX_BACKOFF_SECS = 3 ^ (j + 1).
Proof. intros Hj. destruct j as [|[|[|[|[|j]]]]]; [reflexivity..|lia]. Qed.

Lemma retry_then_success (rls : list HttpResponse) (r : HttpResponse)
    (rest : list HttpResponse) (j : nat) :
  Forall rate_limit_response rls -> success_response r ->
  j + length rls <= 5 ->
  make_request_loop (rls ++ r :: rest) j = (ReqOk, map (fun i => 3 ^ (i + 1)) (seq j (length rls))).
Proof.
  intros HF [Hauth Hst]. revert j.
  induction HF as [|x rls [Hrl Hxa] HF IH]; intros j Hj; cbn [make_request_loop app].
  - rewrite Hauth. unfold handle_rate_limit_with_retry, is_rate_limited, is_client_error.
    destruct (N.eqb_spec (status r) 429); [lia|].
    destruct (N.leb_spec 400 (status r)); [lia|]. simpl.
    unfold is_server_error. destruct (N.leb_spec 500 (status r)); [lia|]. reflexivity.
  - cbn [length] in Hj. rewrite Hxa. unfold handle_rate_limit_with_retry. rewrite Hrl.
    cbn [negb].
    destruct (Nat.leb_spec MAX_RETRIES j) as [Hle|_]; [unfold MAX_RETRIES in Hle; lia|].
    rewrite backoff_small by lia. rewrite IH by lia. reflexivity.
Qed.

Lemma retry_then_exhausted (rls : list HttpResponse) (rest : list HttpResponse) (j : nat) :
  Forall rate_limit_response rls -> j <= 5 -> j + length rls = 6 ->
  make_request_loop (rls ++ rest) j =
    (ReqRateLimitExhausted, map (fun i => 3 ^ (i + 1)) (seq j (5 - j))).
Proof.
  intros HF. revert j.
  induction HF as [|x rls [Hrl Hxa] HF IH]; intros j Hj Hlen;
    cbn [make_request_loop app length] in *; [lia|].
  rewrite Hxa. unfold handle_rate_limit_with_retry. rewrite Hrl. cbn [negb].
  destruct (Nat.leb_spec MAX_RETRIES j) as [Hle|Hlt]; unfold MAX_RETRIES in *.
  - assert (j = 5) as -> by lia. reflexivity.
  - rewrite backoff_small by lia. rewrite IH by lia.
    replace (5 - j) with (S (5 - S j)) by lia. reflexivity.
Qed.

(** C2 (as stated it fails): after six consecutive rate-limited responses
    the request is already abandoned; the 729 s backoff is never taken and
    the seventh response is never requested. *)
Lemma six_rate_limits_exhausted :
  make_request (repeat rate_limited_429 6 ++ [ok_200]) = (ReqRateLimitExhausted, [3; 9; 27; 81; 243]).
Proof. reflexivity. Qed.

(** C2 (amended): after k <= 5 consecutive rate-limited responses the loop
    has slept 3, 9, 27, 81, 243 s (the first k of them, each
    min(3^(attempt+1), 900)) and a following successful response ends it;
    the 6th consecutive rate-limited response ends it as
    [ReqRateLimitExhausted] (the terminal "Rate limit exceeded" error). *)
Theorem make_request_backoff :
  (forall (rls : list HttpResponse) (r : HttpResponse) (rest : list HttpResponse),
     Forall rate_limit_response rls -> success_response r -> length rls <= 5 ->
     make_request (rls ++ r :: rest) = (ReqOk, firstn (length rls) [3; 9; 27; 81; 243])) /\
  (forall (rls rest : list HttpResponse),
     Forall rate_limit_response rls -> length rls = 6 ->
     make_request (rls ++ rest) = (ReqRateLimitExhausted, [3; 9; 27; 81; 243])).
Proof.
  split.
  - intros rls r rest HF Hr Hlen. unfold make_request.
    rewrite retry_then_success by (auto; lia).
    destruct (length rls) as [|[|[|[|[|[|k]]]]]]; [reflexivity..|lia].
  - intros rls rest HF Hlen. unfold make_request.
    rewrite retry_then_exhausted by (auto; lia). reflexivity.
Qed.

Lemma make_request_backoff_witness :
  make_request (repeat rate_limited_429 5 ++ [ok_200]) = (ReqOk, [3; 9; 27; 81; 243]) /\
  make_request (repeat rate_limited_429 6) = (ReqRateLimitExhausted, [3; 9; 27; 81; 243]).
Proof.
  split.
  - apply (proj1 make_request_backoff (repeat rate_limited_429 5) ok_200 []).
    + repeat constructor.
    + split; [reflexivity|vm_compute; reflexivity].
    + simpl; lia.
  - rewrite <- (app_nil_r (repeat rate_limited_429 6)).
    apply (proj2 make_request_backoff (repeat rate_limited_429 6) []).
    + repeat constructor.
    + reflexivity.
Defined.

End RetryFacts.

(* ------------------------------------------------------------------------- *)
(** ** Continuation pagination *)

Module PaginationFacts.

Import Pagination PaginationInputs.

Lemma continuation_loop_echo (fuel n : nat) (merged : list nat) :
  1 <= n ->
  continuation_loop nat pages_echoing_stale_token fuel n (Some "ctoken") merged = None.
Proof.
  revert n merged.
  induction fuel as [|fuel IH]; intros n merged Hn; [reflexivity|].
  cbn [continuation_loop]. destruct n as [|n]; [lia|].
  apply IH. lia.
Qed.

(** The offset listing of Tidal stops at the first empty page. *)
Example tidal_offset_stops_at_empty_page :
  tidal_paginated_request nat offset_pages 300 100 = [1].
Proof. reflexivity. Qed.

(** C3: the continuation loop of [YtMusicApi::paginated_request] stops only
    on a page without a token. After one non-empty page, an empty page that
    echoes the token does not stop it: the items of a later page are
    merged, and a server that keeps echoing the token with empty pages
    keeps it requesting forever. *)
Theorem paginated_request_ignores_empty_pages :
  paginated_request nat pages_with_empty_page 10 = Some [1; 2] /\
  (forall fuel : nat, paginated_request nat pages_echoing_stale_token fuel = None).
Proof.
  split; [reflexivity|].
  intros fuel. unfold paginated_request. cbn [pages_echoing_stale_token page_continuation page_items].
  apply continuation_loop_echo. lia.
Qed.

End PaginationFacts.

(* ------------------------------------------------------------------------- *)
(** ** De-duplication of playlists by id *)

Module DedupFacts.

Import Dedup.

(** What [dedup_loop seen_ids playlists] returns, given the ids already
    seen. *)
Definition dedup_invariant (seen_ids : gmap string bool) (playlists kept warned : list Playlist)
  : Prop :=
  NoDup (map pl_id kept) /\
  (forall q, q ∈ kept -> seen_ids !! pl_id q = None) /\
  kept `sublist_of` playlists /\
  (forall l1 p l2, playlists = l1 ++ p :: l2 -> seen_ids !! pl_id p = None ->
     pl_id p ∉ map pl_id l1 -> p ∈ kept) /\
  (forall l1 p l2, playlists = l1 ++ p :: l2 ->
     is_Some (seen_ids !! pl_id p) \/ pl_id p ∈ map pl_id l1 -> p ∈ warned) /\
  (forall x, x ∈ warned -> is_Some (seen_ids !! pl_id x) \/ pl_id x ∈ map pl_id kept) /\
  length kept + length warned = length playlists.

Lemma dedup_loop_invariant (playlists : list Playlist) (seen_ids : gmap string bool) :
  let '(kept, warned) := dedup_loop seen_ids playlists in
  dedup_invariant seen_ids playlists kept warned.
Proof.
  revert seen_ids.
  induction playlists as [|p rest IH]; intros seen_ids; simpl.
  - split; [constructor|]. split; [intros q Hq; inversion Hq|].
    split; [constructor|]. split; [intros l1 q l2 H; destruct l1; discriminate|].
    split; [intros l1 q l2 H; destruct l1; discriminate|].
    split; [intros y Hy; inversion Hy|]. reflexivity.
  - destruct (seen_ids !! pl_id p) as [b|] eqn:Hseen.
    + specialize (IH seen_ids).
      destruct (dedup_loop seen_ids rest) as [kept warned].
      destruct IH as (Hnd & Hnew & Hsub & Hfirst & Hdup & Hwarn & Hlen).
      repeat split.
      * exact Hnd.
      * exact Hnew.
      * by apply sublist_cons.
      * intros l1 q l2 Hdec Hq Hnot. destruct l1 as [|x l1]; simpl in Hdec; injection Hdec as -> Hdec.
        -- congruence.
        -- apply (Hfirst l1 q l2 Hdec Hq). intros Hin. apply Hnot. simpl. by right.
      * intros l1 q l2 Hdec Hcond. destruct l1 as [|x l1]; simpl in Hdec; injection Hdec as -> Hdec.
        -- left.
        -- right. apply (Hdup l1 q l2 Hdec).
           destruct Hcond as [Hs|Hin]; [by left|].
           simpl in Hin. apply elem_of_cons in Hin as [Heq|Hin]; [|by right].
           left. rewrite Heq, Hseen. eauto.
      * intros x Hx. apply elem_of_cons in Hx as [->|Hx]; [left; rewrite Hseen; eauto|].
        by apply Hwarn.
      * simpl. lia.
    + specialize (IH (<[pl_id p := true]> seen_ids)).
      destruct (dedup_loop (<[pl_id p := true]> seen_ids) rest) as [kept warned].
      destruct IH as (Hnd & Hnew & Hsub & Hfirst & Hdup & Hwarn & Hlen).
      assert (Hne : forall q, q ∈ kept -> pl_id q <> pl_id p /\ seen_ids !! pl_id q = None).
      { intros q Hq. specialize (Hnew q Hq).
        destruct (decide (pl_id q = pl_id p)) as [Heq|Hneq].
        - rewrite Heq, lookup_insert_eq in Hnew. discriminate.
        - rewrite lookup_insert_ne in Hnew by congruence. done. }
      repeat split.
      * simpl. constructor; [|exact Hnd].
        intros Hin. apply list_elem_of_In, in_map_iff in Hin as (q & Hq & Hin).
        apply list_elem_of_In in Hin. apply (Hne q Hin). done.
      * intros q Hq. apply elem_of_cons in Hq as [->|Hq]; [done|]. apply (Hne q Hq).
      * by apply sublist_skip.
      * intros l1 q l2 Hdec Hq Hnot. destruct l1 as [|x l1]; simpl in Hdec; injection Hdec as -> Hdec.
        -- apply list_elem_of_here.
        -- apply list_elem_of_further. simpl in Hnot.
           assert (pl_id q <> pl_id x) by (intros E; apply Hnot; rewrite E; apply list_elem_of_here).
           apply (Hfirst l1 q l2 Hdec).
           ++ rewrite lookup_insert_ne by congruence. done.
           ++ intros Hin. apply Hnot. by apply list_elem_of_further.
      * intros l1 q l2 Hdec Hcond. destruct l1 as [|x l1]; simpl in Hdec; injection Hdec as -> Hdec.
        -- exfalso. destruct Hcond as [Hs|Hin]; [rewrite Hseen in Hs; by destruct Hs|inversion Hin].
        -- apply (Hdup l1 q l2 Hdec).
           destruct (decide (pl_id q = pl_id x)) as [Heq|Hneq].
           ++ left. rewrite Heq, lookup_insert_eq. eauto.
           ++ rewrite lookup_insert_ne by congruence.
              destruct Hcond as [Hs|Hin]; [by left|].
              simpl in Hin. apply elem_of_cons in Hin as [|Hin]; [congruence|by right].
      * intros x Hx. destruct (Hwarn x Hx) as [Hs|Hin].
        -- destruct (decide (pl_id x = pl_id p)) as [Heq|Hneq].
           ++ right. rewrite Heq. simpl. apply list_elem_of_here.
           ++ left. rewrite lookup_insert_ne in Hs by congruence. done.
        -- right. simpl. by apply list_elem_of_further.
      * simpl. lia.
Qed.

(** C9: the de-duplication of [get_playlists_info] (YtMusicApi and
    TidalApi) keeps exactly one playlist per id, the first occurrence,
    in the order of the input (a sub-list of it); every later playlist
    with an id seen before is discarded with a warning. *)
Theorem dedup_playlists_first_occurrence (playlists : list Playlist) :
  let '(kept, warned) := dedup_playlists playlists in
  NoDup (map pl_id kept) /\
  kept `sublist_of` playlists /\
  (forall l1 p l2, playlists = l1 ++ p :: l2 -> pl_id p ∉ map pl_id l1 -> p ∈ kept) /\
  (forall l1 p l2, playlists = l1 ++ p :: l2 -> pl_id p ∈ map pl_id l1 -> p ∈ warned) /\
  (forall x, x ∈ warned -> pl_id x ∈ map pl_id kept) /\
  length kept + length warned = length playlists.
Proof.
  unfold dedup_playlists.
  pose proof (dedup_loop_invariant playlists ∅) as Hinv.
  destruct (dedup_loop ∅ playlists) as [kept warned].
  destruct Hinv as (Hnd & _ & Hsub & Hfirst & Hdup & Hwarn & Hlen).
  repeat split; auto.
  - intros l1 p l2 Hdec Hnot. apply (Hfirst l1 p l2 Hdec); [apply lookup_empty|exact Hnot].
  - intros l1 p l2 Hdec Hin. apply (Hdup l1 p l2 Hdec). by right.
  - intros x Hx. destruct (Hwarn x Hx) as [Hs|Hin]; [|exact Hin].
    rewrite lookup_empty in Hs. by destruct Hs.
Qed.

End DedupFacts.

(* ------------------------------------------------------------------------- *)
(** ** search_song *)

Module SearchFacts.

Import Search SearchInputs.

(** The first query, in order, for which [attempt] gives a song. *)
Fixpoint first_some (attempt : string -> option Song) (queries : list string) : option Song :=
  match queries with
  | [] => None
  | q :: qs => match attempt q with Some s => Some s | None => first_some attempt qs end
  end.

Lemma pop_snoc {A} (l : list A) (x : A) : pop (l ++ [x]) = Some (x, l).
Proof. unfold pop. rewrite last_snoc, removelast_last. reflexivity. Qed.

Lemma while_pop_first (attempt : string -> option Song) (fuel : nat) (queries : list string) :
  length queries <= fuel ->
  fst (while_pop attempt fuel queries) = first_some attempt (rev queries).
Proof.
  revert queries. induction fuel as [|fuel IH]; intros queries Hlen.
  - destruct queries; [reflexivity|simpl in Hlen; lia].
  - destruct queries as [|q qs] using rev_ind; [reflexivity|].
    rewrite length_app in Hlen. simpl in Hlen.
    cbn [while_pop]. rewrite pop_snoc, rev_unit. cbn [first_some].
    destruct (attempt q) as [s|]; [reflexivity|].
    destruct (while_pop attempt fuel qs) as [r reqs] eqn:E. simpl.
    rewrite <- (IH qs) by lia. rewrite E. reflexivity.
Qed.

Lemma while_pop_requests (attempt : string -> option Song) (fuel : nat) (queries : list string) :
  Forall (fun r => exists q, r = ByQuery q) (snd (while_pop attempt fuel queries)).
Proof.
  revert queries. induction fuel as [|fuel IH]; intros queries; [constructor|].
  cbn [while_pop]. destruct (pop queries) as [[q rest]|]; [|constructor].
  destruct (attempt q); [repeat constructor; eauto|].
  specialize (IH rest). destruct (while_pop attempt fuel rest) as [r reqs]. simpl in *.
  constructor; eauto.
Qed.

Lemma first_some_find (f : Song -> bool) (g : string -> list Song) (queries : list string) :
  first_some (fun q => List.find f (g q)) queries = List.find f (flat_map g queries).
Proof.
  induction queries as [|q qs IH]; [reflexivity|]. simpl.
  induction (g q) as [|x xs IHx]; simpl; [exact IH|].
  destruct (f x); [reflexivity|exact IHx].
Qed.

Lemma query_loop_find (build_queries : Song -> list string) (f : Song -> bool)
    (g : string -> list Song) (song : Song) :
  fst (query_loop build_queries (fun q => List.find f (g q)) song) =
    List.find f (flat_map g (rev (build_queries song))).
Proof. unfold query_loop. rewrite while_pop_first by lia. apply first_some_find. Qed.

(** C5 (as stated it fails): PlexApi::search_song never searches by ISRC;
    for a song with a known ISRC its first request is a text query. *)
Lemma plex_search_ignores_isrc :
  plex_search_song name_queries (fun _ _ => false) (fun _ => []) song_with_isrc =
    (None, [ByQuery "Road Trip Band"; ByQuery "Road Trip"]).
Proof. reflexivity. Qed.

(** C5 (amended): YtMusicApi and TidalApi search a song with a known ISRC by
    one exact-ISRC request and return its result without [compare] (no
    result: [None]); otherwise, and for PlexApi always, they try the
    queries of [build_queries] from the last to the first and return the
    first result satisfying [compare] (YtMusic and Tidal look at the top 3
    results of each query, Plex at all of them), and [None] when no query
    gives one; PlexApi issues text queries only. *)
Theorem search_song_spec :
  (forall build_queries compare isrc_result query_result song isrc,
     song_isrc song = Some isrc ->
     yt_search_song build_queries compare isrc_result query_result song =
       (option_map (fun r => set_isrc r (Some isrc)) (isrc_result isrc), [ByIsrc isrc])) /\
  (forall build_queries compare isrc_result query_result song,
     song_isrc song = None ->
     fst (yt_search_song build_queries compare isrc_result query_result song) =
       List.find (compare song) (flat_map (fun q => firstn 3 (query_result q)) (rev (build_queries song)))) /\
  (forall build_queries compare isrc_result query_result song isrc,
     song_isrc song = Some isrc ->
     tidal_search_song build_queries compare isrc_result query_result song =
       (head (isrc_result (to_uppercase isrc)), [ByIsrc (to_uppercase isrc)])) /\
  (forall build_queries compare isrc_result query_result song,
     song_isrc song = None ->
     fst (tidal_search_song build_queries compare isrc_result query_result song) =
       List.find (compare song) (flat_map (fun q => firstn 3 (query_result q)) (rev (build_queries song)))) /\
  (forall build_queries compare hub_result song,
     fst (plex_search_song build_queries compare hub_result song) =
       List.find (compare song) (flat_map hub_result (rev (build_queries song))) /\
     Forall (fun r => exists q, r = ByQuery q) (snd (plex_search_song build_queries compare hub_result song))).
Proof.
  split; [|split; [|split; [|split]]].
  - intros bq cmp ir qr song isrc Hi. unfold yt_search_song. rewrite Hi.
    destruct (ir isrc); reflexivity.
  - intros bq cmp ir qr song Hi. unfold yt_search_song. rewrite Hi. apply query_loop_find.
  - intros bq cmp ir qr song isrc Hi. unfold tidal_search_song. rewrite Hi.
    destruct (ir (to_uppercase isrc)); reflexivity.
  - intros bq cmp ir qr song Hi. unfold tidal_search_song. rewrite Hi. apply query_loop_find.
  - intros bq cmp hub song. split; [apply query_loop_find|].
    unfold plex_search_song, query_loop. apply while_pop_requests.
Qed.

Lemma search_song_spec_witness :
  yt_search_song name_queries (fun _ _ => false) (fun _ => None) (fun _ => []) song_with_isrc =
    (None, [ByIsrc "USRC17607839"]) /\
  tidal_search_song name_queries (fun _ _ => false) (fun _ => []) (fun _ => []) song_with_isrc =
    (None, [ByIsrc "USRC17607839"]).
Proof.
  split.
  - apply (proj1 search_song_spec name_queries (fun _ _ => false) (fun _ => None) (fun _ => [])
             song_with_isrc "USRC17607839"). reflexivity.
  - apply (proj1 (proj2 (proj2 search_song_spec)) name_queries (fun _ _ => false) (fun _ => [])
             (fun _ => []) song_with_isrc "USRC17607839"). reflexivity.
Defined.

End SearchFacts.

(* ------------------------------------------------------------------------- *)
(** ** add_songs_to_playlist *)

Module AddSongsFacts.

Import Duration AddSongs SearchInputs AddSongsInputs.

Lemma prefix_elem {A} (l1 l2 : list A) (x : A) : l1 `prefix_of` l2 -> x ∈ l1 -> x ∈ l2.
Proof. intros [k ->] Hx. apply elem_of_app. by left. Qed.

(** YtMusicApi::add_songs_to_playlist only ever extends [playlist.songs],
    first by the whole batch, whatever the remote answers. *)
Lemma yt_add_songs_prefix (remote : list Song -> EditResponse) (fuel : nat)
    (playlist : Playlist) (songs : list Song) :
  (pl_songs playlist ++ songs) `prefix_of` pl_songs (fst (yt_add_songs remote fuel playlist songs)).
Proof.
  revert playlist songs.
  induction fuel as [|fuel IH]; intros playlist songs; cbn [yt_add_songs];
    destruct (remote songs); try reflexivity.
  - destruct (1 <? length songs); reflexivity.
  - destruct (1 <? length songs); [|reflexivity].
    set (p1 := set_songs playlist (pl_songs playlist ++ songs)).
    pose proof (IH p1 (firstn (length songs / 2) songs)) as H1.
    destruct (yt_add_songs remote fuel p1 (firstn (length songs / 2) songs)) as [pl1 r1] eqn:E1.
    simpl in H1.
    assert (Hp1 : (pl_songs playlist ++ songs) `prefix_of` pl_songs pl1).
    { etransitivity; [|exact H1]. simpl. apply prefix_app_r. reflexivity. }
    destruct r1 as [u| |]; simpl; try exact Hp1.
    etransitivity; [exact Hp1|]. etransitivity; [|apply IH]. apply prefix_app_r. reflexivity.
Qed.

Lemma yt_add_songs_to_playlist_appends (remote : list Song -> EditResponse)
    (playlist : Playlist) (songs : list Song) (s : Song) :
  s ∈ songs -> s ∈ pl_songs (fst (yt_add_songs_to_playlist remote playlist songs)).
Proof.
  intros Hs. eapply prefix_elem; [apply yt_add_songs_prefix|].
  apply elem_of_app. by right.
Qed.

(** C6: YtMusicApi appends the submitted songs to the caller's playlist value
    whatever the remote answers, but TidalApi and PlexApi leave it as it
    is: after a successful call adding one song to an empty playlist, the
    playlist value held by the caller is still empty. *)
Theorem add_songs_in_memory_append :
  (forall (remote : list Song -> EditResponse) (playlist : Playlist) (songs : list Song) (s : Song),
     s ∈ songs -> s ∈ pl_songs (fst (yt_add_songs_to_playlist remote playlist songs))) /\
  tidal_add_songs_to_playlist true empty_playlist [song_with_isrc] = (empty_playlist, ROk tt) /\
  plex_add_songs_to_playlist (fun _ => true) empty_playlist [song_with_isrc] = (empty_playlist, ROk tt).
Proof.
  split; [exact yt_add_songs_to_playlist_appends|].
  split; reflexivity.
Qed.

Lemma add_songs_in_memory_append_witness :
  song_with_isrc ∈ pl_songs (fst (yt_add_songs_to_playlist (fun _ => EditFailure)
                                     empty_playlist [song_with_isrc])).
Proof.
  apply (proj1 add_songs_in_memory_append). apply list_elem_of_here.
Defined.

End AddSongsFacts.

(* ------------------------------------------------------------------------- *)
(** ** synchronize_playlists *)

Module SyncFacts.

Import Sync SyncInputs.

(** C1: a second run against the state the first run left issues one more
    [add_songs_to_playlist] call, with an empty batch: the source song is
    not [==] its match, so it is searched again, and the match, already in
    the destination playlist, is filtered out of [to_sync]; the call is
    made because the guard tests [dst_songs], not [to_sync]. *)
Theorem second_run_adds_empty_batch :
  let w1 := run road_trip [] empty_world in
  mutations w1 = [MCreatePlaylist "Road Trip"; MAddSongs "0" [dst_song "a"]] /\
  mutations (run road_trip [] w1) = mutations w1 ++ [MAddSongs "0" []].
Proof. vm_compute. split; reflexivity. Qed.

(** C4 (as stated it fails): the pacing statics are not reset between runs.
    After a first run with one search, a second run takes its first
    cooldown at its 199th search. *)
Lemma pacing_carried_across_runs :
  let w1 := run one_song_run [] empty_world in
  pacing w1 = {| song_counter := 1; sleep_duration := 180 |} /\
  cooldowns (run many_songs_run [] w1) = [180].
Proof. vm_compute. split; reflexivity. Qed.


(** C8: with a destination "Foo" owned by another account and two source
    playlists named "Foo", only the first source "Foo" is dropped; the
    second one gets a newly created destination playlist "Foo". *)
Theorem foreign_owner_drops_only_first_namesake :
  mutations (run two_foos [] foreign_foo_world) =
    [MCreatePlaylist "Foo"; MAddSongs "0" [dst_song "b"]].
Proof. vm_compute. reflexivity. Qed.


(** *** Step 2 blocks every song on a second pass *)

Section SecondPass.

Variable dst_type : MusicApiType.
Variable song_eq : Song -> Song -> bool.
Variable search_song : Song -> option Song.
Hypothesis song_eq_refl : forall s, song_eq s s = true.

(** The matches step 1 collects against the destination songs [present]. *)
Fixpoint matched (present : list Song) (srcs : list Song) : list Song :=
  match srcs with
  | [] => []
  | s :: rest =>
      if contains song_eq present s then matched present rest
      else match search_song s with
           | None => matched present rest
           | Some d => d :: matched present rest
           end
  end.

Lemma search_loop_matched (present srcs : list Song) (w : World) :
  fst (search_loop dst_type song_eq search_song present srcs w) = matched present srcs.
Proof.
  revert w. induction srcs as [|s rest IH]; intros w; [reflexivity|]. simpl.
  destruct (contains song_eq present s); [apply IH|].
  destruct (search_song s) as [d|]; [|apply IH].
  specialize (IH (pace_world dst_type w)).
  destruct (search_loop dst_type song_eq search_song present rest (pace_world dst_type w)).
  simpl in *. by rewrite IH.
Qed.

Lemma matched_In (present srcs : list Song) (d : Song) :
  In d (matched present srcs) <->
  exists s, In s srcs /\ contains song_eq present s = false /\ search_song s = Some d.
Proof.
  induction srcs as [|s rest IH]; simpl.
  - split; [tauto|]. intros (x & [] & _).
  - destruct (contains song_eq present s) eqn:Hc.
    + rewrite IH. split.
      * intros (x & Hx & Hxc & Hxs). exists x. auto.
      * intros (x & [<-|Hx] & Hxc & Hxs); [congruence|]. exists x. auto.
    + destruct (search_song s) as [e|] eqn:Hs; simpl; rewrite IH; split.
      * intros [<-|(x & Hx & Hxc & Hxs)]; [exists s; auto|exists x; auto].
      * intros (x & [<-|Hx] & Hxc & Hxs); [left; congruence|right; exists x; auto].
      * intros (x & Hx & Hxc & Hxs). exists x. auto.
      * intros (x & [<-|Hx] & Hxc & Hxs); [congruence|]. exists x. auto.
Qed.

Lemma contains_app (l1 l2 : list Song) (x : Song) :
  contains song_eq (l1 ++ l2) x = contains song_eq l1 x || contains song_eq l2 x.
Proof. unfold contains. apply existsb_app. Qed.

Lemma build_to_sync_spec (present F acc : list Song) :
  (forall x, contains song_eq acc x = true ->
     contains song_eq (build_to_sync song_eq present F acc) x = true) /\
  (forall d, In d F -> contains song_eq present d = true \/
     contains song_eq (build_to_sync song_eq present F acc) d = true).
Proof.
  revert acc. induction F as [|d F IH]; intros acc; simpl.
  - split; [auto|tauto].
  - destruct (contains song_eq present d) eqn:Hp;
      [|destruct (contains song_eq acc d) eqn:Ha]; split.
    + apply IH.
    + intros e [<-|He]; [by left|]. apply IH, He.
    + apply IH.
    + intros e [<-|He]; [right; by apply IH|]. apply IH, He.
    + intros x Hx. apply IH. rewrite contains_app, Hx. reflexivity.
    + intros e [<-|He]; [|apply IH, He].
      right. apply IH. rewrite contains_app. simpl. rewrite song_eq_refl, orb_true_r. reflexivity.
Qed.

Lemma build_to_sync_all_present (present F acc : list Song) :
  (forall d, In d F -> contains song_eq present d = true) ->
  build_to_sync song_eq present F acc = acc.
Proof.
  revert acc. induction F as [|d F IH]; intros acc HF; [reflexivity|]. simpl.
  rewrite HF by (left; reflexivity). apply IH. intros e He. apply HF. by right.
Qed.

(** Run step 1 and step 2 on the destination songs [present], append the
    batch, and run them again on the same source songs: the second batch
    is empty (every match is already in the destination playlist). *)
Lemma second_pass_batch_empty (present srcs : list Song) :
  let to_sync := build_to_sync song_eq present (matched present srcs) [] in
  build_to_sync song_eq (present ++ to_sync) (matched (present ++ to_sync) srcs) [] = [].
Proof.
  intros to_sync. subst to_sync. apply build_to_sync_all_present.
  intros d Hd. apply matched_In in Hd as (s & Hs & Hc & Hsearch).
  rewrite contains_app in Hc. apply orb_false_iff in Hc as [Hc _].
  assert (Hm : In d (matched present srcs)) by (apply matched_In; exists s; auto).
  rewrite contains_app.
  destruct (proj2 (build_to_sync_spec present (matched present srcs) []) d Hm) as [H|H];
    rewrite H; [reflexivity|apply orb_true_r].
Qed.

End SecondPass.

(** *** Pacing *)

(** [k] pacing steps from [p]: the statics after them and the sleeps. *)
Fixpoint pace_iter (k : nat) (p : Pacing) : Pacing * list nat :=
  match k with
  | O => (p, [])
  | S k' =>
      let '(p1, slept1) := pace_iter k' p in
      let '(p2, slept) := pace p1 in
      (p2, slept1 ++ match slept with Some d => [d] | None => [] end)
  end.

Lemma div_200_step (k : nat) :
  (S k mod 200 = 0 -> S k / 200 = S (k / 200)) /\
  (S k mod 200 <> 0 -> S k / 200 = k / 200).
Proof.
  pose proof (Nat.div_mod_eq k 200) as Hk. pose proof (Nat.mod_upper_bound k 200) as Hr.
  set (q := k / 200) in *. set (r := k mod 200) in *.
  destruct (decide (r = 199)) as [Hr199|Hr199].
  - assert (E : S k = 200 * S q + 0) by lia.
    assert (Hm : S k mod 200 = 0) by (rewrite E; symmetry; apply (Nat.mod_unique _ _ (S q)); lia).
    assert (Hd : S k / 200 = S q) by (rewrite E; symmetry; apply (Nat.div_unique _ _ _ 0); lia).
    rewrite Hm, Hd. split; [reflexivity|]. intros []. reflexivity.
  - assert (E : S k = 200 * q + S r) by lia.
    assert (Hm : S k mod 200 = S r) by (rewrite E; symmetry; apply (Nat.mod_unique _ _ q); lia).
    assert (Hd : S k / 200 = q) by (rewrite E; symmetry; apply (Nat.div_unique _ _ _ (S r)); lia).
    rewrite Hm, Hd. split; [lia|reflexivity].
Qed.

Lemma pace_iter_init (k : nat) :
  pace_iter k pacing_init =
    ({| song_counter := k; sleep_duration := 180 + 60 * (k / 200) |},
     map (fun j => 180 + 60 * j) (seq 0 (k / 200))).
Proof.
  induction k as [|k IH]; [reflexivity|].
  cbn [pace_iter]. rewrite IH. unfold pace. cbn [song_counter sleep_duration].
  destruct (div_200_step k) as [Hz Hnz].
  destruct (Nat.eqb_spec (S k mod 200) 0) as [E|E].
  - rewrite (Hz E), seq_S, map_app. f_equal. f_equal. lia.
  - rewrite (Hnz E), app_nil_r. reflexivity.
Qed.

(** *** What one iteration of the playlist loop can change *)

Section Frames.

Variable dst_type : MusicApiType.
Variable song_eq : Song -> Song -> bool.
Variable search_song : Song -> option Song.
Variable dst_account : string.
Variable to_lowercase : string -> string.

(** A relation between worlds that the primitives of one iteration
    establish is established by the whole iteration. *)
Lemma sync_playlist_preserves (R : World -> World -> Prop) (like_all : bool)
    (dst_likes : list Song) (p : Playlist) (st : list Playlist * World) :
  (forall w, R w w) ->
  (forall w1 w2 w3, R w1 w2 -> R w2 w3 -> R w1 w3) ->
  (forall w, R w (snd (create_playlist dst_account w (pl_name p)))) ->
  (forall present srcs w, R w (snd (search_loop dst_type song_eq search_song present srcs w))) ->
  (forall w pl songs, R w (add_songs_to_playlist w pl songs)) ->
  (forall w songs, R w (add_likes w songs)) ->
  R (snd st) (snd (sync_playlist dst_type song_eq search_song dst_account like_all dst_likes p st)).
Proof.
  intros Hrefl Htrans Hc Hs Ha Hl. destruct st as [dsts w]. unfold sync_playlist.
  destruct (pl_songs p) as [|s0 ss]; [apply Hrefl|].
  assert (Hrest : forall dp w1, R w w1 ->
    R w (snd (let '(dst_songs, w) :=
                 search_loop dst_type song_eq search_song (pl_songs dp)
                   (dedup_songs (s0 :: ss)) w1 in
               match dst_songs with
               | [] => (dsts, w)
               | _ :: _ =>
                   let to_sync := build_to_sync song_eq (pl_songs dp) dst_songs [] in
                   let w := add_songs_to_playlist w dp to_sync in
                   let w := if like_all
                            then add_likes w (List.filter (fun s => negb (contains song_eq dst_likes s)) to_sync)
                            else w in
                   (dsts, w)
               end))).
  { intros dp w1 H1.
    pose proof (Hs (pl_songs dp) (dedup_songs (s0 :: ss)) w1) as H2.
    destruct (search_loop dst_type song_eq search_song (pl_songs dp) (dedup_songs (s0 :: ss)) w1)
      as [found w2]. cbn [snd] in H2.
    apply (Htrans _ _ _ H1) in H2.
    destruct found as [|d ds]; [exact H2|]. cbn zeta. cbn [snd].
    destruct like_all; [|apply (Htrans _ _ _ H2), Ha].
    apply (Htrans _ _ _ H2). eapply Htrans; [apply Ha|apply Hl]. }
  destruct (remove_first_named (pl_name p) dsts) as [[dp rest]|].
  - (* the destination playlist's siblings are not part of [snd] *)
    pose proof (Hrest dp w (Hrefl w)) as H.
    destruct (search_loop dst_type song_eq search_song (pl_songs dp) (dedup_songs (s0 :: ss)) w)
      as [found w2]; destruct found; exact H.
  - pose proof (Hc w) as H1.
    destruct (create_playlist dst_account w (pl_name p)) as [dp w1]. cbn [snd] in H1.
    pose proof (Hrest dp w1 H1) as H.
    destruct (search_loop dst_type song_eq search_song (pl_songs dp) (dedup_songs (s0 :: ss)) w1)
      as [found w2]; destruct found; exact H.
Qed.


Lemma search_loop_nonyt (present srcs : list Song) (w : World) :
  MusicApiType_eqb dst_type YtMusic = false ->
  snd (search_loop dst_type song_eq search_song present srcs w) = w.
Proof.
  intros Hny. revert w. induction srcs as [|s rest IH]; intros w; [reflexivity|]. cbn [search_loop].
  assert (Hp : pace_world dst_type w = w) by (unfold pace_world; by rewrite Hny).
  destruct (contains song_eq present s); [apply IH|]. rewrite Hp.
  destruct (search_song s) as [d|]; [|apply IH].
  specialize (IH w). destruct (search_loop dst_type song_eq search_song present rest w).
  exact IH.
Qed.

(** The pacing statics and sleeps of a world. *)
Definition same_pacing (w w' : World) : Prop :=
  pacing w' = pacing w /\ cooldowns w' = cooldowns w.

Lemma synchronize_playlists_nonyt_pacing (src_playlists : list Playlist) (like_all : bool)
    (skip_playlists : list string) (dst_owner : string) (w : World) :
  MusicApiType_eqb dst_type YtMusic = false ->
  same_pacing w (synchronize_playlists dst_type song_eq search_song dst_account to_lowercase
                   src_playlists like_all skip_playlists dst_owner w).
Proof.
  intros Hny. unfold synchronize_playlists.
  destruct (filter_playlists to_lowercase src_playlists (remote_playlists w) skip_playlists dst_owner)
    as [todo dst].
  set (dst_likes := if like_all then remote_likes w else []).
  assert (Hfold : forall st, same_pacing (snd st)
    (snd (fold_left (fun st p => sync_playlist dst_type song_eq search_song dst_account
                                   like_all dst_likes p st) todo st))).
  { induction todo as [|p todo IH]; intros st; [split; reflexivity|]. cbn [fold_left].
    pose proof (IH (sync_playlist dst_type song_eq search_song dst_account like_all dst_likes p st))
      as [H1 H2].
    assert (Hstep : same_pacing (snd st)
      (snd (sync_playlist dst_type song_eq search_song dst_account like_all dst_likes p st))).
    { apply sync_playlist_preserves.
      - intros w'. split; reflexivity.
      - intros w1 w2 w3 [A1 B1] [A2 B2]. split; congruence.
      - intros w'. split; reflexivity.
      - intros present srcs w'. rewrite search_loop_nonyt by exact Hny. split; reflexivity.
      - intros w' pl songs. split; reflexivity.
      - intros w' songs. split; reflexivity. }
    destruct Hstep as [H3 H4]. split; congruence. }
  apply (Hfold (dst, w)).
Qed.



Lemma pace_iter_shift (k : nat) (p : Pacing) :
  pace_iter (S k) p =
    let '(p1, slept) := pace p in
    let '(p2, slept2) := pace_iter k p1 in
    (p2, match slept with Some d => [d] | None => [] end ++ slept2).
Proof.
  revert p. induction k as [|k IH]; intros p.
  - cbn [pace_iter]. destruct (pace p) as [p1 [d|]]; reflexivity.
  - change (pace_iter (S (S k)) p) with
      (let '(p1, slept1) := pace_iter (S k) p in
       let '(p2, slept) := pace p1 in
       (p2, slept1 ++ match slept with Some d => [d] | None => [] end)).
    rewrite IH. destruct (pace p) as [p1 o1]. cbn [pace_iter].
    destruct (pace_iter k p1) as [p2 s2]. destruct (pace p2) as [p3 o3].
    by rewrite app_assoc.
Qed.

(** The searches of one playlist: toward YtMusic each search (a source
    song not already present) advances the pacing statics by one step of
    [pace]; toward any other destination the world is left unchanged. *)
Lemma search_loop_pacing (present srcs : list Song) (w : World) :
  let k := length (List.filter (fun s => negb (contains song_eq present s)) srcs) in
  let w' := snd (search_loop dst_type song_eq search_song present srcs w) in
  if MusicApiType_eqb dst_type YtMusic
  then pacing w' = fst (pace_iter k (pacing w)) /\
       cooldowns w' = cooldowns w ++ snd (pace_iter k (pacing w))
  else w' = w.
Proof.
  cbv zeta. destruct (MusicApiType_eqb dst_type YtMusic) eqn:Hyt;
    [|by apply search_loop_nonyt].
  revert w. induction srcs as [|s rest IH]; intros w.
  - cbn. split; [reflexivity|by rewrite app_nil_r].
  - cbn [search_loop List.filter].
    destruct (contains song_eq present s); cbn [negb]; [apply IH|].
    cbn [length]. rewrite pace_iter_shift.
    assert (Hw : pacing (pace_world dst_type w) = fst (pace (pacing w)) /\
                 cooldowns (pace_world dst_type w) =
                   cooldowns w ++ match snd (pace (pacing w)) with Some d => [d] | None => [] end).
    { unfold pace_world. rewrite Hyt.
      destruct (pace (pacing w)) as [p1 [d|]]; cbn; split; rewrite ?app_nil_r; reflexivity. }
    assert (IH' := IH (pace_world dst_type w)).
    assert (Hs : snd (search_loop dst_type song_eq search_song present rest (pace_world dst_type w)) =
                 snd (match search_song s with
                      | None => search_loop dst_type song_eq search_song present rest (pace_world dst_type w)
                      | Some d => let '(found, w) := search_loop dst_type song_eq search_song present rest
                                                      (pace_world dst_type w) in (d :: found, w)
                      end)).
    { destruct (search_song s); [|reflexivity].
      destruct (search_loop dst_type song_eq search_song present rest (pace_world dst_type w)); reflexivity. }
    rewrite <- Hs. destruct IH' as [H1 H2]. destruct Hw as [Hp Hc].
    rewrite Hp in H1, H2. rewrite Hc in H2.
    destruct (pace (pacing w)) as [p1 o1]. cbn [fst snd] in *.
    destruct (pace_iter _ p1) as [p2 s2]. cbn [fst snd] in *.
    split; [exact H1|by rewrite H2, app_assoc].
Qed.

End Frames.




(** C4 (amended): the pacing statics are a process-wide pair that starts
    at counter 0 and cooldown 180 s. From any pacing state, the searches
    of a playlist toward a YtMusic destination advance it by one step of
    [pace] per search; after [k] searches from the initial state the
    counter is [k], the cooldown is [180 + 60 * (k / 200)] and the sleeps
    taken were 180, 240, ... once per 200 searches. Toward any other
    destination a whole run of [synchronize_playlists] leaves the state
    and the sleeps unchanged. *)
Theorem pacing_process_wide (dst_type : MusicApiType) (song_eq : Song -> Song -> bool)
    (search_song : Song -> option Song) (dst_account : string) (to_lowercase : string -> string)
    (present srcs : list Song) (w : World) (k : nat)
    (src_playlists : list Playlist) (like_all : bool) (skip : list string) (dst_owner : string) :
  MusicApiType_eqb dst_type YtMusic = false ->
  (let n := length (List.filter (fun s => negb (contains song_eq present s)) srcs) in
   let w' := snd (search_loop YtMusic song_eq search_song present srcs w) in
   pacing w' = fst (pace_iter n (pacing w)) /\
   cooldowns w' = cooldowns w ++ snd (pace_iter n (pacing w))) /\
  pace_iter k pacing_init =
    ({| song_counter := k; sleep_duration := 180 + 60 * (k / 200) |},
     map (fun j => 180 + 60 * j) (seq 0 (k / 200))) /\
  same_pacing w (synchronize_playlists dst_type song_eq search_song dst_account to_lowercase
                   src_playlists like_all skip dst_owner w).
Proof.
  intros Hny. split; [|split].
  - exact (search_loop_pacing YtMusic song_eq search_song present srcs w).
  - apply pace_iter_init.
  - by apply synchronize_playlists_nonyt_pacing.
Qed.

Lemma pacing_process_wide_witness :
  MusicApiType_eqb Tidal YtMusic = false /\
  ((let n := length (List.filter (fun s => negb (contains song_eq_key [] s)) [src_song "a"]) in
    let w' := snd (search_loop YtMusic song_eq_key search_by_id [] [src_song "a"] empty_world) in
    pacing w' = fst (pace_iter n (pacing empty_world)) /\
    cooldowns w' = cooldowns empty_world ++ snd (pace_iter n (pacing empty_world))) /\
   pace_iter 400 pacing_init =
     ({| song_counter := 400; sleep_duration := 180 + 60 * (400 / 200) |},
      map (fun j => 180 + 60 * j) (seq 0 (400 / 200))) /\
   same_pacing empty_world (synchronize_playlists Tidal song_eq_key search_by_id "me" to_lowercase
                              road_trip false [] "me" empty_world)).
Proof.
  split; [reflexivity|].
  apply (pacing_process_wide Tidal song_eq_key search_by_id "me" to_lowercase [] [src_song "a"] empty_world 400
           road_trip false [] "me").
  reflexivity.
Defined.



End SyncFacts.

(* ------------------------------------------------------------------------- *)
(** ** Rust string operations *)

Module RStrFacts.

Import RStr.

Lemma split_char_cons (sep : N) (s : rstr) : exists p ps, split_char sep s = p :: ps.
Proof.
  induction s as [|c s IH]; [by eexists _, _|]. simpl.
  destruct (c =? sep)%N; [by eexists _, _|]. destruct IH as (p & ps & ->). by eexists _, _.
Qed.

Lemma split_char_app (sep : N) (x y : rstr) :
  split_char sep (x ++ sep :: y) = split_char sep x ++ split_char sep y.
Proof.
  induction x as [|c x IH]; simpl.
  - by rewrite N.eqb_refl.
  - destruct (c =? sep)%N; [by rewrite IH|]. rewrite IH.
    destruct (split_char_cons sep x) as (p & ps & ->). reflexivity.
Qed.

Lemma split_char_no_sep (sep : N) (x : rstr) : sep ∉ x -> split_char sep x = [x].
Proof.
  induction x as [|c x IH]; intros H; [reflexivity|]. simpl.
  destruct (N.eqb_spec c sep) as [->|Hne]; [destruct H; left|].
  rewrite IH; [reflexivity|]. intros Hin. apply H. by right.
Qed.

Lemma split_once_app (sep : N) (k v : rstr) : sep ∉ k -> split_once sep (k ++ sep :: v) = Some (k, v).
Proof.
  induction k as [|c k IH]; intros H; simpl; [by rewrite N.eqb_refl|].
  destruct (N.eqb_spec c sep) as [->|Hne]; [destruct H; left|].
  rewrite IH; [reflexivity|]. intros Hin. apply H. by right.
Qed.

Lemma split_once_first (sep : N) (s a b : rstr) : split_once sep s = Some (a, b) -> sep ∉ a.
Proof.
  revert a. induction s as [|c s IH]; intros a H; simpl in H; [discriminate|].
  destruct (N.eqb_spec c sep) as [->|Hne].
  - injection H as <- <-. apply not_elem_of_nil.
  - destruct (split_once sep s) as [[a' b']|] eqn:E; [|discriminate].
    injection H as <- <-. intros Hin. apply elem_of_cons in Hin as [Hin|Hin]; [congruence|].
    exact (IH a' eq_refl Hin).
Qed.

Lemma split_once_none (sep : N) (s : rstr) : sep ∉ s -> split_once sep s = None.
Proof.
  induction s as [|c s IH]; intros H; [reflexivity|]. simpl.
  destruct (N.eqb_spec c sep) as [->|Hne]; [destruct H; left|].
  rewrite IH; [reflexivity|]. intros Hin. apply H. by right.
Qed.

(** The shape of a trimmed string: no white space at either end. *)
Definition no_outer_ws (s : rstr) : Prop :=
  match s with [] => True | c :: _ => is_whitespace c = false end /\
  match rev s with [] => True | c :: _ => is_whitespace c = false end.

Lemma trim_start_app_last (l : rstr) (c : N) :
  is_whitespace c = false -> trim_start (l ++ [c]) = trim_start l ++ [c].
Proof.
  intros Hc. induction l as [|x l IH]; simpl; [by rewrite Hc|].
  destruct (is_whitespace x); [exact IH|reflexivity].
Qed.

Lemma trim_start_shape (s : rstr) :
  match trim_start s with [] => True | c :: _ => is_whitespace c = false end.
Proof.
  induction s as [|c s IH]; simpl; [exact I|]. destruct (is_whitespace c) eqn:E; [exact IH|exact E].
Qed.

Lemma trim_start_fixed (s : rstr) :
  match s with [] => True | c :: _ => is_whitespace c = false end -> trim_start s = s.
Proof. destruct s as [|c s]; [reflexivity|]. simpl. intros ->. reflexivity. Qed.

Lemma trim_shape (s : rstr) : no_outer_ws (trim s).
Proof.
  unfold trim, trim_end. pose proof (trim_start_shape s) as Hs.
  destruct (trim_start s) as [|c t]; [split; exact I|]. cbn [rev].
  pose proof (trim_start_shape (rev t ++ [c])) as Hl.
  rewrite trim_start_app_last by exact Hs. rewrite trim_start_app_last in Hl by exact Hs.
  rewrite rev_app_distr. cbn [rev app]. split; [exact Hs|].
  cbn [rev]. rewrite rev_involutive. exact Hl.
Qed.

Lemma trim_fixed (s : rstr) : no_outer_ws s -> trim s = s.
Proof.
  intros [Hh Ht]. unfold trim, trim_end. rewrite (trim_start_fixed s Hh).
  rewrite (trim_start_fixed (rev s) Ht). apply rev_involutive.
Qed.

Lemma trim_idem (s : rstr) : trim (trim s) = trim s.
Proof. apply trim_fixed, trim_shape. Qed.

Lemma trimmed_shape (s : rstr) : trim s = s -> no_outer_ws s.
Proof. intros H. rewrite <- H. apply trim_shape. Qed.

Lemma trim_start_suffix (s : rstr) : exists pre, s = pre ++ trim_start s.
Proof.
  induction s as [|c s IH]; [by exists []|]. simpl. destruct (is_whitespace c).
  - destruct IH as [pre Hpre]. exists (c :: pre). simpl. by rewrite <- Hpre.
  - by exists [].
Qed.

Lemma trim_sub (s : rstr) (c : N) : In c (trim s) -> In c s.
Proof.
  unfold trim, trim_end. intros H. apply in_rev in H.
  destruct (trim_start_suffix (rev (trim_start s))) as [pre Hpre].
  assert (H1 : In c (rev (trim_start s))) by (rewrite Hpre; apply in_or_app; by right).
  apply in_rev in H1.
  destruct (trim_start_suffix s) as [pre' Hpre']. rewrite Hpre'. apply in_or_app. by right.
Qed.

Lemma trim_ws_cons (c : N) (s : rstr) : is_whitespace c = true -> trim (c :: s) = trim s.
Proof. intros H. unfold trim. simpl. by rewrite H. Qed.

Lemma trim_start_nil_all_ws (s : rstr) : trim_start s = [] -> forall c, c ∈ s -> is_whitespace c = true.
Proof.
  induction s as [|x s IH]; intros H c Hc; [inversion Hc|]. simpl in H.
  destruct (is_whitespace x) eqn:E; [|discriminate].
  apply elem_of_cons in Hc as [->|Hc]; [exact E|exact (IH H c Hc)].
Qed.

Lemma trim_nil_all_ws (s : rstr) : trim s = [] -> forall c, c ∈ s -> is_whitespace c = true.
Proof.
  intros H. unfold trim, trim_end in H.
  assert (H1 : trim_start (rev (trim_start s)) = []).
  { destruct (trim_start (rev (trim_start s))) as [|x l]; [reflexivity|]. simpl in H.
    destruct (rev l); discriminate. }
  assert (H2 : trim_start s = []).
  { pose proof (trim_start_shape s) as Hs. destruct (trim_start s) as [|x t]; [reflexivity|].
    exfalso. pose proof (trim_start_nil_all_ws _ H1 x) as Hx.
    rewrite Hx in Hs; [discriminate|]. apply list_elem_of_In. rewrite <- in_rev. left. reflexivity. }
  exact (trim_start_nil_all_ws s H2).
Qed.

(** A pair [k=v] of trimmed parts is trimmed. *)
Lemma trim_pair (k v : rstr) (sep : N) :
  is_whitespace sep = false -> trim k = k -> trim v = v -> trim (k ++ sep :: v) = k ++ sep :: v.
Proof.
  intros Hsep Hk Hv. apply trimmed_shape in Hk as [Hk1 Hk2], Hv as [Hv1 Hv2].
  apply trim_fixed. split.
  - destruct k as [|c k]; [exact Hsep|exact Hk1].
  - rewrite rev_app_distr. cbn [rev]. destruct (rev v) as [|c t]; simpl; [exact Hsep|exact Hv2].
Qed.

End RStrFacts.

(* ------------------------------------------------------------------------- *)
(** ** Browser cookies *)

Module CookieFacts.

Import RStr RStrFacts Cookies.

Lemma extract_sapisid_from_app (l1 l2 : list rstr) :
  extract_sapisid_from (l1 ++ l2) =
    match extract_sapisid_from l1 with Some x => Some x | None => extract_sapisid_from l2 end.
Proof.
  induction l1 as [|p l1 IH]; [reflexivity|]. cbn [app extract_sapisid_from].
  destruct (split_once 61 (trim p)) as [[key value]|]; [|exact IH].
  destruct (rstr_eqb (trim key) (lit "__Secure-3PAPISID")); [reflexivity|exact IH].
Qed.

Lemma socs_suffix (s : rstr) : s ++ lit "; SOCS=CAI" = s ++ 59%N :: lit " SOCS=CAI".
Proof. reflexivity. Qed.

Lemma has_socs_ensure (s : rstr) : has_socs (ensure_socs_cookie s) = true.
Proof.
  unfold ensure_socs_cookie. destruct (has_socs s) eqn:Hs; [exact Hs|].
  case_bool_decide; [reflexivity|].
  unfold has_socs. rewrite socs_suffix, split_char_app, existsb_app.
  apply orb_true_iff. right. reflexivity.
Qed.

Lemma extract_sapisid_ensure (s : rstr) :
  extract_sapisid (ensure_socs_cookie s) = extract_sapisid s.
Proof.
  unfold ensure_socs_cookie. destruct (has_socs s); [reflexivity|].
  case_bool_decide as Ht.
  - unfold extract_sapisid.
    rewrite (split_char_no_sep 59 s).
    + cbn [extract_sapisid_from]. rewrite Ht. reflexivity.
    + intros Hin. pose proof (trim_nil_all_ws s Ht 59%N Hin). discriminate.
  - unfold extract_sapisid. rewrite socs_suffix, split_char_app, extract_sapisid_from_app.
    destruct (extract_sapisid_from (split_char 59 s)); reflexivity.
Qed.

(** The pair written for one map entry. *)
Lemma pair_text (k v : rstr) : k ++ lit "=" ++ v = k ++ 61%N :: v.
Proof. reflexivity. Qed.

Lemma join_split (E : list rstr) :
  Forall (fun x => 59%N ∉ x) E ->
  split_char 59 (join (lit "; ") E) =
    match E with [] => [[]] | x :: xs => x :: map (cons 32%N) xs end.
Proof.
  induction E as [|x [|y E] IH]; intros HF; [reflexivity| |].
  - inversion HF as [|? ? Hx _]. cbn [join map]. by apply split_char_no_sep.
  - inversion HF as [|? ? Hx HF']. specialize (IH HF').
    change (join (lit "; ") (x :: y :: E)) with (x ++ lit "; " ++ join (lit "; ") (y :: E)).
    change (lit "; " ++ join (lit "; ") (y :: E)) with (59%N :: 32%N :: join (lit "; ") (y :: E)).
    rewrite split_char_app, (split_char_no_sep 59 x Hx). cbn [app split_char]. rewrite IH.
    reflexivity.
Qed.

Lemma extract_from_map_ws (l : list rstr) :
  extract_sapisid_from (map (cons 32%N) l) = extract_sapisid_from l.
Proof.
  induction l as [|p l IH]; [reflexivity|]. cbn [map extract_sapisid_from].
  rewrite trim_ws_cons by reflexivity. rewrite IH. reflexivity.
Qed.

Definition entry_ok (kv : rstr * rstr) : Prop :=
  trim (fst kv) = fst kv /\ trim (snd kv) = snd kv /\ (61%N ∉ fst kv) /\ (59%N ∉ fst kv) /\
  (59%N ∉ snd kv).

Lemma extract_from_pairs (E : list (rstr * rstr)) :
  Forall entry_ok E ->
  (forall v, extract_sapisid_from (map (fun '(k, v) => k ++ lit "=" ++ v) E) = Some v ->
     In (lit "__Secure-3PAPISID", v) E) /\
  (extract_sapisid_from (map (fun '(k, v) => k ++ lit "=" ++ v) E) = None ->
     forall v, ~ In (lit "__Secure-3PAPISID", v) E).
Proof.
  induction E as [|[k v] E IH]; intros HF.
  - split; [discriminate|]. intros _ v [].
  - inversion HF as [|? ? Hok HF']. specialize (IH HF').
    unfold entry_ok in Hok. cbn [fst snd] in Hok. destruct Hok as (Hk & Hv & Hk61 & _).
    cbn [map extract_sapisid_from]. rewrite pair_text, trim_pair by (reflexivity || assumption).
    rewrite split_once_app by exact Hk61. rewrite Hk.
    unfold rstr_eqb. case_bool_decide as He.
    + rewrite Hv. split; [|discriminate]. intros v' [= <-]. left. by rewrite He.
    + split.
      * intros v' Hv'. right. by apply IH.
      * intros Hn v' [Hkv|Hin]; [injection Hkv as -> _; by apply He|exact (proj2 IH Hn v' Hin)].
Qed.

Lemma extract_rebuild (E : list (rstr * rstr)) :
  Forall entry_ok E ->
  (forall v, extract_sapisid (rebuild_cookie_string E) = Some v ->
     In (lit "__Secure-3PAPISID", v) E) /\
  (extract_sapisid (rebuild_cookie_string E) = None ->
     forall v, ~ In (lit "__Secure-3PAPISID", v) E).
Proof.
  intros HF. unfold rebuild_cookie_string. rewrite extract_sapisid_ensure.
  unfold extract_sapisid. rewrite join_split.
  - destruct E as [|e E]; [split; [discriminate|intros _ v []]|].
    cbn [map]. replace (extract_sapisid_from (_ :: map (cons 32%N) _)) with
      (extract_sapisid_from (map (fun '(k, v) => k ++ lit "=" ++ v) (e :: E))).
    + by apply extract_from_pairs.
    + cbn [map extract_sapisid_from]. by rewrite extract_from_map_ws.
  - apply Forall_map. eapply Forall_impl; [exact HF|].
    intros [k v] Hok. unfold entry_ok in Hok. cbn [fst snd] in Hok.
    destruct Hok as (_ & _ & Hk61 & Hk & Hv). rewrite pair_text.
    intros Hin. apply elem_of_app in Hin as [Hin|Hin]; [by apply Hk|].
    apply elem_of_cons in Hin as [Hin|Hin]; [discriminate|by apply Hv].
Qed.

(** What every entry of the cookie map satisfies: key and value trimmed,
    no '=' in the key. *)
Definition cookie_inv (m : cookie_map) : Prop :=
  map_Forall (fun k v => trim k = k /\ trim v = v /\ 61%N ∉ k) m.

Lemma insert_trimmed_inv (m : cookie_map) (s key value : rstr) :
  cookie_inv m -> split_once 61 s = Some (key, value) ->
  cookie_inv (<[trim key := trim value]> m).
Proof.
  intros Hm Hs. apply map_Forall_insert_2; [|exact Hm].
  split; [apply trim_idem|]. split; [apply trim_idem|].
  intros Hin. apply (split_once_first 61 s key value Hs).
  apply list_elem_of_In, trim_sub, list_elem_of_In, Hin.
Qed.

Lemma parse_existing_inv (existing : rstr) : cookie_inv (parse_existing_cookies existing).
Proof.
  unfold parse_existing_cookies.
  assert (H : forall l m, cookie_inv m -> cookie_inv (fold_left (fun cookie_map cookie_pair =>
               match split_once 61 cookie_pair with
               | Some (key, value) => <[trim key := trim value]> cookie_map
               | None => cookie_map
               end) l m)).
  { induction l as [|p l IH]; intros m Hm; [exact Hm|]. cbn [fold_left]. apply IH.
    destruct (split_once 61 p) as [[key value]|] eqn:E; [|exact Hm].
    exact (insert_trimmed_inv m p key value Hm E). }
  apply H. apply map_Forall_empty.
Qed.

Lemma apply_set_cookie_inv (st : cookie_map * bool) (sc : rstr) :
  cookie_inv st.1 -> cookie_inv (apply_set_cookie st sc).1.
Proof.
  destruct st as [m u]. cbn [fst]. intros Hm. unfold apply_set_cookie.
  destruct (split_once 59 sc) as [[nv attrs]|]; [|exact Hm].
  destruct (split_once 61 nv) as [[name value]|] eqn:E; [|exact Hm].
  destruct (negb _ && negb _); cbn [fst].
  - exact (insert_trimmed_inv m nv name value Hm E).
  - by apply map_Forall_delete.
Qed.

Lemma update_cookie_map_inv (existing : rstr) (set_cookies : list rstr) :
  cookie_inv (update_cookie_map existing set_cookies).1.
Proof.
  unfold update_cookie_map.
  assert (H : forall l st, cookie_inv st.1 -> cookie_inv (fold_left apply_set_cookie l st).1).
  { induction l as [|sc l IH]; intros st Hst; [exact Hst|]. cbn [fold_left].
    apply IH, apply_set_cookie_inv, Hst. }
  apply H, parse_existing_inv.
Qed.

Lemma apply_set_cookie_other (st : cookie_map * bool) (sc name : rstr) :
  set_cookie_name sc <> Some name -> (apply_set_cookie st sc).1 !! name = st.1 !! name.
Proof.
  destruct st as [m u]. unfold set_cookie_name, apply_set_cookie. intros Hn.
  destruct (split_once 59 sc) as [[nv attrs]|]; [|reflexivity].
  destruct (split_once 61 nv) as [[n v]|]; [|reflexivity].
  assert (Hne : trim n <> name) by congruence.
  destruct (negb _ && negb _); cbn [fst].
  - by apply lookup_insert_ne.
  - by apply lookup_delete_ne.
Qed.

Lemma fold_apply_other (l : list rstr) (st : cookie_map * bool) (name : rstr) :
  Forall (fun sc => set_cookie_name sc <> Some name) l ->
  (fold_left apply_set_cookie l st).1 !! name = st.1 !! name.
Proof.
  revert st. induction l as [|sc l IH]; intros st Hl; [reflexivity|].
  inversion Hl as [|? ? Hsc Hl']; subst. cbn [fold_left].
  rewrite IH by exact Hl'. by apply apply_set_cookie_other.
Qed.

Lemma apply_set_cookie_no_semicolon (st : cookie_map * bool) (sc : rstr) :
  59%N ∉ sc -> apply_set_cookie st sc = st.
Proof.
  intros Hsc. destruct st as [m u]. unfold apply_set_cookie.
  by rewrite split_once_none by exact Hsc.
Qed.

Ltac decide_prop := apply (bool_decide_unpack _); vm_compute; reflexivity.

(** X1: [ensure_socs_cookie] always yields a cookie string with a pair
    starting with "SOCS=", and applying it a second time changes nothing. *)
Theorem ensure_socs_cookie_idempotent (s : rstr) :
  has_socs (ensure_socs_cookie s) = true /\
  ensure_socs_cookie (ensure_socs_cookie s) = ensure_socs_cookie s.
Proof.
  split; [apply has_socs_ensure|].
  unfold ensure_socs_cookie at 1. by rewrite has_socs_ensure.
Qed.

(** X2: adding SOCS=CAI never changes the SAPISID found in a cookie
    string: [extract_sapisid] gives the same result (value or error) before
    and after [ensure_socs_cookie]. *)
Theorem extract_sapisid_ensure_socs (s : rstr) :
  extract_sapisid (ensure_socs_cookie s) = extract_sapisid s.
Proof. apply extract_sapisid_ensure. Qed.

(** X3: a Set-Cookie header without any ';' is ignored by
    [update_browser_cookies]: the cookie map and the SAPISID flag are as if
    the header were absent. *)
Theorem update_cookie_map_no_semicolon (existing : rstr) (l1 l2 : list rstr) (sc : rstr) :
  59%N ∉ sc ->
  update_cookie_map existing (l1 ++ sc :: l2) = update_cookie_map existing (l1 ++ l2).
Proof.
  intros Hsc. unfold update_cookie_map. rewrite !fold_left_app. cbn [fold_left].
  by rewrite apply_set_cookie_no_semicolon.
Qed.

Lemma update_cookie_map_no_semicolon_witness :
  update_cookie_map (lit "a=1") ([lit "b=2; Path=/"] ++ lit "a=3" :: [])
  = update_cookie_map (lit "a=1") ([lit "b=2; Path=/"] ++ []).
Proof. apply update_cookie_map_no_semicolon. decide_prop. Defined.

(** X4: the last Set-Cookie header of the form "name=value; attrs" that
    names a cookie decides it: the map holds the trimmed value when that is
    neither empty nor "deleted", and no entry for the trimmed name otherwise,
    whatever the existing cookies and the earlier headers were. *)
Theorem update_cookie_map_last_set_cookie (existing : rstr) (l1 l2 : list rstr)
    (name value attrs : rstr) :
  59%N ∉ name -> 61%N ∉ name -> 59%N ∉ value ->
  Forall (fun sc => set_cookie_name sc <> Some (trim name)) l2 ->
  (update_cookie_map existing (l1 ++ (name ++ 61%N :: value ++ 59%N :: attrs) :: l2)).1
    !! trim name
  = if negb (bool_decide (trim value = [])) && negb (rstr_eqb (trim value) (lit "deleted"))
    then Some (trim value) else None.
Proof.
  intros Hn59 Hn61 Hv59 Hl2. unfold update_cookie_map. rewrite fold_left_app. cbn [fold_left].
  rewrite fold_apply_other by exact Hl2.
  destruct (fold_left apply_set_cookie l1 _) as [m u]. unfold apply_set_cookie.
  replace (name ++ 61%N :: value ++ 59%N :: attrs)
    with ((name ++ 61%N :: value) ++ 59%N :: attrs) by (by rewrite <- app_assoc).
  assert (Hnv : 59%N ∉ name ++ 61%N :: value).
  { rewrite elem_of_app, elem_of_cons. intros [H|[H|H]]; [exact (Hn59 H)|discriminate|exact (Hv59 H)]. }
  rewrite split_once_app by exact Hnv. rewrite split_once_app by exact Hn61.
  destruct (negb _ && negb _); cbn [fst]; [apply lookup_insert_eq|apply lookup_delete_eq].
Qed.

Lemma update_cookie_map_last_set_cookie_witness :
  (update_cookie_map (lit "a=1; SID=x")
     ([lit "SID=old; Path=/"] ++ (lit "SID" ++ 61%N :: lit " new " ++ 59%N :: lit " Path=/")
        :: [lit "other=1; Path=/"])).1 !! trim (lit "SID")
  = Some (lit "new").
Proof.
  rewrite (update_cookie_map_last_set_cookie (lit "a=1; SID=x") [lit "SID=old; Path=/"]
             [lit "other=1; Path=/"] (lit "SID") (lit " new ") (lit " Path=/"));
    [vm_compute; reflexivity|decide_prop|decide_prop|decide_prop|decide_prop].
Defined.

(** X5: when [update_browser_cookies] refreshes the SAPISID (a
    "__Secure-3PAPISID" Set-Cookie with a real value was applied), the value
    it extracts from the rebuilt cookie string is the one the updated cookie
    map holds for "__Secure-3PAPISID", whatever the map's iteration order,
    provided no cookie name or value of the map contains ';'. *)
Theorem update_browser_cookies_sapisid (order : cookie_map -> list (rstr * rstr))
    (existing : rstr) (set_cookies : list rstr) (cookie_string : rstr) (sapisid : option rstr) :
  (forall m, order m ≡ₚ map_to_list m) ->
  map_Forall (fun k v => (59%N ∉ k) /\ (59%N ∉ v)) ((update_cookie_map existing set_cookies).1) ->
  update_browser_cookies order existing set_cookies = Some (cookie_string, Some sapisid) ->
  sapisid = (update_cookie_map existing set_cookies).1 !! lit "__Secure-3PAPISID".
Proof.
  intros Hord Hsemi Hupd. pose proof (update_cookie_map_inv existing set_cookies) as Hinv.
  unfold update_browser_cookies in Hupd.
  destruct set_cookies as [|sc scs]; [discriminate|].
  destruct (update_cookie_map existing (sc :: scs)) as [m upd]. cbn [fst] in *.
  destruct upd; [|discriminate]. injection Hupd as _ <-.
  assert (HE : forall k v, In (k, v) (order m) <-> m !! k = Some v).
  { intros k v. split; intros H.
    - apply elem_of_map_to_list, list_elem_of_In. exact (Permutation_in _ (Hord m) H).
    - apply elem_of_map_to_list, list_elem_of_In in H.
      exact (Permutation_in _ (Permutation_sym (Hord m)) H). }
  assert (HF : Forall entry_ok (order m)).
  { apply Forall_forall. intros [k v] Hin. apply list_elem_of_In, HE in Hin.
    destruct (Hinv k v Hin) as (Hk & Hv & Hk61). destruct (Hsemi k v Hin) as [Hk59 Hv59].
    unfold entry_ok; cbn [fst snd]. auto. }
  destruct (extract_rebuild (order m) HF) as [Hs Hn].
  destruct (extract_sapisid (rebuild_cookie_string (order m))) as [v|] eqn:Ex.
  - symmetry. apply HE, Hs. reflexivity.
  - symmetry. apply eq_None_not_Some. intros [v Hv]. apply (Hn eq_refl v), HE, Hv.
Qed.

Lemma update_browser_cookies_sapisid_witness :
  Some (lit "new") =
  (update_cookie_map (lit "a=1; __Secure-3PAPISID=old")
     [lit "__Secure-3PAPISID=new; Path=/"]).1 !! lit "__Secure-3PAPISID".
Proof.
  apply (update_browser_cookies_sapisid map_to_list (lit "a=1; __Secure-3PAPISID=old")
           [lit "__Secure-3PAPISID=new; Path=/"]
           (rebuild_cookie_string (map_to_list (update_cookie_map (lit "a=1; __Secure-3PAPISID=old")
              [lit "__Secure-3PAPISID=new; Path=/"]).1))).
  - intros m. reflexivity.
  - decide_prop.
  - vm_compute. reflexivity.
Defined.


End CookieFacts.

(* ------------------------------------------------------------------------- *)
(** ** parse_and_save_headers *)

Module HeaderFacts.

Import RStr Headers.

Ltac decide_prop := apply (bool_decide_unpack _); vm_compute; reflexivity.

Lemma lit_colon_space : lit ": " = [58%N; 32%N].
Proof. reflexivity. Qed.

Lemma lit_colon : lit ":" = [58%N].
Proof. reflexivity. Qed.

(** Appending [w] to a string [k] with no ": " finds the first ": " in [w],
    unless [k] ends with ':' and [w] starts with ' '. *)
Lemma split_colon_space_app (k w : rstr) :
  split_once_str [58%N; 32%N] k = None -> head w <> Some 32%N ->
  split_once_str [58%N; 32%N] (k ++ w) =
  match split_once_str [58%N; 32%N] w with
  | Some (a, b) => Some (k ++ a, b)
  | None => None
  end.
Proof.
  induction k as [|c k IH]; intros Hk Hw.
  - cbn [app]. destruct (split_once_str _ w) as [[a b]|]; reflexivity.
  - cbn [app]. cbn [split_once_str] in Hk |- *.
    destruct (starts_with [58%N; 32%N] (c :: k)) eqn:Hs; [discriminate|].
    assert (Hs' : starts_with [58%N; 32%N] (c :: k ++ w) = false).
    { cbn [starts_with] in Hs |- *. destruct (58 =? c)%N eqn:Hc; [|reflexivity].
      cbn [andb] in Hs |- *. destruct k as [|d k].
      - destruct w as [|x w]; [reflexivity|]. cbn [app starts_with].
        destruct (32 =? x)%N eqn:Hx; [|reflexivity]. apply N.eqb_eq in Hx. subst. done.
      - exact Hs. }
    rewrite Hs'.
    destruct (split_once_str _ k) as [[a b]|] eqn:Ek; [discriminate|].
    rewrite (IH eq_refl Hw). destruct (split_once_str _ w) as [[a b]|]; reflexivity.
Qed.

Lemma splitn2_header (k v : rstr) :
  split_once_str (lit ": ") k = None -> splitn2 (lit ": ") (k ++ lit ": " ++ v) = [k; v].
Proof.
  intros Hk. unfold splitn2. rewrite lit_colon_space in *.
  rewrite split_colon_space_app by (exact Hk || discriminate). cbn. by rewrite app_nil_r.
Qed.

Lemma splitn2_key_line (k : rstr) :
  split_once_str (lit ": ") k = None -> splitn2 (lit ": ") (k ++ lit ":") = [k ++ lit ":"].
Proof.
  intros Hk. unfold splitn2. rewrite lit_colon_space in *.
  rewrite split_colon_space_app by (exact Hk || discriminate). reflexivity.
Qed.

Lemma splitn2_value_line (v : rstr) :
  split_once_str (lit ": ") v = None -> splitn2 (lit ": ") v = [v].
Proof. intros Hv. unfold splitn2. by rewrite Hv. Qed.

Lemma starts_with_colon_app (k w : rstr) :
  k <> [] -> starts_with (lit ":") (k ++ w) = starts_with (lit ":") k.
Proof. destruct k as [|c k]; [done|]. intros _. reflexivity. Qed.

Lemma ends_with_colon_app (k : rstr) : ends_with (lit ":") (k ++ lit ":") = true.
Proof.
  unfold ends_with. rewrite rev_app_distr. cbn. by rewrite N.eqb_refl.
Qed.

Lemma trim_end_colon (k : rstr) :
  ends_with (lit ":") k = false -> trim_end_matches_char 58 (k ++ lit ":") = k.
Proof.
  rewrite lit_colon. unfold ends_with, trim_end_matches_char. rewrite rev_app_distr.
  cbn [rev app]. intros Hk.
  replace (trim_start_matches_char 58 (58%N :: rev k)) with (trim_start_matches_char 58 (rev k))
    by (cbn [trim_start_matches_char]; reflexivity).
  destruct (rev k) as [|c r] eqn:Er.
  - cbn. apply (f_equal (@rev N)) in Er. by rewrite rev_involutive in Er.
  - cbn [starts_with] in Hk. cbn [trim_start_matches_char]. rewrite andb_true_r in Hk.
    rewrite N.eqb_sym, Hk. rewrite <- Er. apply rev_involutive.
Qed.

Lemma lookup_fold_delete (ks : list rstr) (m : gmap rstr rstr) (k : rstr) :
  fold_left (fun m key => delete key m) ks m !! k = if bool_decide (k ∈ ks) then None else m !! k.
Proof.
  revert m. induction ks as [|key ks IH]; intros m; cbn [fold_left].
  - rewrite bool_decide_false; [reflexivity|apply not_elem_of_nil].
  - rewrite IH. case_bool_decide as H1; case_bool_decide as H2; try reflexivity.
    + exfalso. apply H2. by apply elem_of_cons; right.
    + apply elem_of_cons in H2 as [->|H2]; [apply lookup_delete_eq|done].
    + apply lookup_delete_ne. intros ->. apply H2. apply elem_of_cons; left; done.
Qed.

Lemma not_default_ne (k : rstr) :
  k ∉ default_headers ->
  lit "user-agent" <> k /\ lit "accept" <> k /\ lit "accept-language" <> k /\
  lit "content-type" <> k /\ lit "x-goog-visitor-id" <> k.
Proof. intros Hd. repeat split; intros <-; apply Hd; decide_prop. Qed.

(** X6: a one-line header "name: value" is stored under the lowercased name,
    whatever the remembered Chrome key, which it leaves unchanged. *)
Theorem header_line_one_line (to_lowercase : rstr -> rstr) (m : gmap rstr rstr) (key k v : rstr) :
  starts_with (lit ":") k = false -> ends_with (lit ":") k = false ->
  split_once_str (lit ": ") k = None ->
  header_line to_lowercase (m, key) (k ++ lit ": " ++ v) = (<[to_lowercase k := v]> m, key).
Proof.
  intros Hs He Hsp. unfold header_line. rewrite splitn2_header by exact Hsp.
  cbv beta iota zeta. rewrite Hs, He. reflexivity.
Qed.

Lemma header_line_one_line_witness :
  header_line ascii_lowercase (∅, []) (lit "X-Goog-AuthUser" ++ lit ": " ++ lit "0")
  = (<[ascii_lowercase (lit "X-Goog-AuthUser") := lit "0"]> ∅, []).
Proof. apply header_line_one_line; decide_prop. Defined.

(** X7: Chrome's two-line format, a line "name:" followed by a line with the
    value, stores the value under the name as written, without lowercasing
    it (unlike the one-line format), and clears the remembered key. *)
Theorem header_lines_chrome (to_lowercase : rstr -> rstr) (m : gmap rstr rstr) (key k v : rstr) :
  k <> [] -> starts_with (lit ":") k = false -> ends_with (lit ":") k = false ->
  split_once_str (lit ": ") k = None ->
  split_once_str (lit ": ") v = None -> starts_with (lit ":") v = false ->
  ends_with (lit ":") v = false ->
  fold_left (header_line to_lowercase) [k ++ lit ":"; v] (m, key) = (<[k := v]> m, []).
Proof.
  intros Hne Hs He Hsp Hvsp Hvs Hve. cbn [fold_left]. unfold header_line at 2.
  rewrite splitn2_key_line by exact Hsp. cbv beta iota zeta.
  rewrite starts_with_colon_app by exact Hne. rewrite Hs, ends_with_colon_app.
  rewrite trim_end_colon by exact He.
  unfold header_line. rewrite splitn2_value_line by exact Hvsp. cbv beta iota zeta.
  rewrite Hvs, Hve. cbn [length Nat.eqb]. rewrite bool_decide_false by exact Hne. reflexivity.
Qed.

Lemma header_lines_chrome_witness :
  fold_left (header_line ascii_lowercase) [lit "Cookie" ++ lit ":"; lit "SID=1"] (∅, [])
  = (<[lit "Cookie" := lit "SID=1"]> ∅, []).
Proof. apply header_lines_chrome; (decide_prop || discriminate). Defined.

Lemma parse_and_save_headers_validation (to_lowercase : rstr -> rstr) (contents : list rstr) :
  ((exists user_headers, parse_and_save_headers to_lowercase contents = inr user_headers) <->
   is_Some (collect_headers to_lowercase contents !! lit "cookie") /\
   is_Some (collect_headers to_lowercase contents !! lit "x-goog-authuser")) /\
  (forall missing, parse_and_save_headers to_lowercase contents = inl missing ->
   forall k, In k missing <->
     In k required_headers /\ collect_headers to_lowercase contents !! k = None).
Proof.
  unfold parse_and_save_headers.
  assert (Hf : forall k, In k (List.filter (fun key => bool_decide (collect_headers to_lowercase contents !! key = None)) required_headers) <->
     In k required_headers /\ collect_headers to_lowercase contents !! k = None).
  { intros k. rewrite filter_In. by rewrite bool_decide_eq_true. }
  revert Hf. unfold required_headers. cbn [List.filter].
  destruct (collect_headers to_lowercase contents !! lit "cookie") eqn:E1;
  destruct (collect_headers to_lowercase contents !! lit "x-goog-authuser") eqn:E2;
  rewrite ?bool_decide_false, ?bool_decide_true by (done || discriminate); intros Hf;
  (split; [split; [intros [uh Huh]; try discriminate; split; eexists; reflexivity
                  |intros [[? ?] [? ?]]; try discriminate; eexists; reflexivity]
         |intros missing Hm; try discriminate; injection Hm as <-; exact Hf]).
Qed.

(** X8: [parse_and_save_headers] succeeds exactly when the parsed headers
    have "cookie" and "x-goog-authuser" and, when a file path is given, the
    file write succeeds. It returns the missing-headers error exactly when
    one of the two is absent, listing exactly the absent ones, and then
    writes no file; it returns the write error exactly when both are present,
    a path is given and the write fails. On success the headers are the
    map of [parse_and_save_headers]. *)
Theorem parse_and_save_headers_required (to_lowercase : rstr -> rstr) (filepath : option rstr)
    (write_ok : bool) (contents : list rstr) :
  let r := parse_and_save_headers_file to_lowercase filepath write_ok contents in
  let h := collect_headers to_lowercase contents in
  ((exists user_headers, r = inr user_headers) <->
   is_Some (h !! lit "cookie") /\ is_Some (h !! lit "x-goog-authuser") /\
   (filepath = None \/ write_ok = true)) /\
  ((exists missing, r = inl (MissingHeaders missing)) <->
   h !! lit "cookie" = None \/ h !! lit "x-goog-authuser" = None) /\
  (forall missing, r = inl (MissingHeaders missing) ->
   forall k, In k missing <-> In k required_headers /\ h !! k = None) /\
  (r = inl WriteError <->
   is_Some (h !! lit "cookie") /\ is_Some (h !! lit "x-goog-authuser") /\
   filepath <> None /\ write_ok = false) /\
  (forall user_headers, r = inr user_headers ->
   parse_and_save_headers to_lowercase contents = inr user_headers).
Proof.
  cbn zeta. pose proof (parse_and_save_headers_validation to_lowercase contents) as [Hok Hmiss].
  unfold parse_and_save_headers_file.
  destruct (parse_and_save_headers to_lowercase contents) as [missing|uh] eqn:E.
  - assert (Hn : ~ (is_Some (collect_headers to_lowercase contents !! lit "cookie") /\
                    is_Some (collect_headers to_lowercase contents !! lit "x-goog-authuser"))).
    { intros H. apply Hok in H as [? ?]. discriminate. }
    split; [|split; [|split; [|split]]].
    + split; [intros [? ?]; discriminate|intros (H1 & H2 & _); by destruct Hn].
    + split; [intros _|eauto].
      destruct (collect_headers to_lowercase contents !! lit "cookie"); [|by left].
      destruct (collect_headers to_lowercase contents !! lit "x-goog-authuser"); [|by right].
      destruct Hn; split; eexists; reflexivity.
    + intros m [= <-]. apply Hmiss. reflexivity.
    + split; [discriminate|intros (H1 & H2 & _); by destruct Hn].
    + discriminate.
  - destruct (proj1 Hok (ex_intro _ uh eq_refl)) as [H1 H2].
    assert (Hp : forall x : option rstr, is_Some x -> x <> None)
      by (intros x [? ->]; discriminate).
    split; [|split; [|split; [|split]]].
    + destruct filepath as [fp|], write_ok; (split; [intros [u Hu]; try discriminate|]);
        try (intros (_ & _ & [H|H]); try discriminate); eauto; naive_solver.
    + split; [intros [m Hm]; destruct filepath, write_ok; discriminate|].
      intros [H|H]; [destruct (Hp _ H1 H)|destruct (Hp _ H2 H)].
    + intros m Hm. destruct filepath, write_ok; discriminate.
    + destruct filepath as [fp|], write_ok; (split; [intros Hw; try discriminate|]);
        try (intros (_ & _ & Hf & Hw); try discriminate; try congruence); auto.
    + intros u Hu. destruct filepath, write_ok; try discriminate; injection Hu as <-; reflexivity.
Qed.

Lemma parse_and_save_headers_required_witness :
  parse_and_save_headers_file ascii_lowercase (Some (lit "headers.json")) false
    [lit "cookie: SID=1"; lit "x-goog-authuser: 0"] = inl WriteError.
Proof.
  apply (proj1 (proj2 (proj2 (proj2
    (parse_and_save_headers_required ascii_lowercase (Some (lit "headers.json")) false
       [lit "cookie: SID=1"; lit "x-goog-authuser: 0"]))))).
  split; [eexists; vm_compute; reflexivity|].
  split; [eexists; vm_compute; reflexivity|]. split; [discriminate|reflexivity].
Defined.

(** X9: on success, [parse_and_save_headers] has dropped "host",
    "content-length", "accept-encoding" and every key starting with "sec-",
    set "user-agent", "accept", "accept-language" and "content-type" to
    fixed values, kept the parsed "x-goog-visitor-id" ("" when absent), and
    kept every other parsed header as it was. *)
Theorem parse_and_save_headers_result (to_lowercase : rstr -> rstr) (contents : list rstr)
    (user_headers : gmap rstr rstr) :
  parse_and_save_headers to_lowercase contents = inr user_headers ->
  (forall k, k ∈ ignore_headers \/ starts_with (lit "sec-") k = true -> user_headers !! k = None) /\
  user_headers !! lit "user-agent" = Some default_user_agent /\
  user_headers !! lit "accept" = Some (lit "*/*") /\
  user_headers !! lit "accept-language" = Some (lit "en-US,en;q=0.5") /\
  user_headers !! lit "content-type" = Some (lit "application/json") /\
  user_headers !! lit "x-goog-visitor-id" =
    Some (default [] (collect_headers to_lowercase contents !! lit "x-goog-visitor-id")) /\
  (forall k, k ∉ ignore_headers -> starts_with (lit "sec-") k = false -> k ∉ default_headers ->
   user_headers !! k = collect_headers to_lowercase contents !! k).
Proof.
  unfold parse_and_save_headers.
  destruct (List.filter _ required_headers) as [|? ?]; [|discriminate].
  intros [= <-].
  set (h := collect_headers to_lowercase contents).
  assert (Hf0 : forall k,
    filter (fun kv : rstr * rstr => starts_with (lit "sec-") kv.1 = false)
      (fold_left (fun m key => delete key m) ignore_headers h) !! k =
    if bool_decide (k ∈ ignore_headers) then None
    else if starts_with (lit "sec-") k then None else h !! k).
  { intros k. rewrite map_lookup_filter, lookup_fold_delete.
    case_bool_decide; [reflexivity|].
    destruct (h !! k) as [x|]; [|by destruct (starts_with (lit "sec-") k)].
    cbn [mbind option_bind fst]. destruct (starts_with (lit "sec-") k); reflexivity. }
  split; [|split; [|split; [|split; [|split; [|split]]]]].
  - intros k Hk. assert (Hd : k ∉ default_headers).
    { intros Hin. unfold default_headers in Hin.
      repeat (apply elem_of_cons in Hin as [->|Hin]; [revert Hk; decide_prop|]).
      by apply not_elem_of_nil in Hin. }
    destruct (not_default_ne k Hd) as (H1 & H2 & H3 & H4 & H5).
    rewrite !lookup_insert_ne by assumption. rewrite Hf0.
    destruct Hk as [Hk|Hk]; [by rewrite bool_decide_true|].
    case_bool_decide; [reflexivity|]. by rewrite Hk.
  - repeat (rewrite lookup_insert_ne by decide_prop). apply lookup_insert_eq.
  - repeat (rewrite lookup_insert_ne by decide_prop). apply lookup_insert_eq.
  - repeat (rewrite lookup_insert_ne by decide_prop). apply lookup_insert_eq.
  - repeat (rewrite lookup_insert_ne by decide_prop). apply lookup_insert_eq.
  - rewrite lookup_insert_eq. repeat (rewrite lookup_insert_ne by decide_prop).
    rewrite Hf0, bool_decide_false by decide_prop.
    change (starts_with (lit "sec-") (lit "x-goog-visitor-id")) with false. reflexivity.
  - intros k Hi Hs Hd. destruct (not_default_ne k Hd) as (H1 & H2 & H3 & H4 & H5).
    rewrite !lookup_insert_ne by assumption. rewrite Hf0, bool_decide_false by assumption.
    by rewrite Hs.
Qed.

Lemma parse_and_save_headers_result_witness :
  exists user_headers,
    parse_and_save_headers ascii_lowercase
      [lit "Cookie: SID=1"; lit "X-Goog-AuthUser: 0"; lit "Host: music.youtube.com";
       lit "Sec-Fetch-Mode: cors"] = inr user_headers /\
    user_headers !! lit "sec-fetch-mode" = None.
Proof.
  exists (match parse_and_save_headers ascii_lowercase
      [lit "Cookie: SID=1"; lit "X-Goog-AuthUser: 0"; lit "Host: music.youtube.com";
       lit "Sec-Fetch-Mode: cors"] with inr m => m | inl _ => ∅ end).
  split; [vm_compute; reflexivity|].
  apply (parse_and_save_headers_result ascii_lowercase
     [lit "Cookie: SID=1"; lit "X-Goog-AuthUser: 0"; lit "Host: music.youtube.com";
      lit "Sec-Fetch-Mode: cors"]); [vm_compute; reflexivity|].
  right. reflexivity.
Defined.

End HeaderFacts.

(* ------------------------------------------------------------------------- *)
(** ** slice::chunks, join and split on ',' *)

Module ChunkFacts.

Import AddSongs.

Lemma chunks_fuel_props {A} (n : nat) :
  0 < n -> forall fuel (l : list A), length l <= fuel ->
  concat (chunks_fuel fuel n l) = l /\
  Forall (fun c => 1 <= length c <= n) (chunks_fuel fuel n l) /\
  length (chunks_fuel fuel n l) = (length l + (n - 1)) / n.
Proof.
  intros Hn fuel. induction fuel as [|fuel IH]; intros l Hl.
  - destruct l; [|cbn in Hl; lia]. cbn. split; [reflexivity|]. split; [constructor|].
    symmetry. apply Nat.div_small. lia.
  - destruct l as [|x l'].
    + cbn. split; [reflexivity|]. split; [constructor|]. symmetry. apply Nat.div_small. lia.
    + cbn [chunks_fuel].
      destruct (IH (skipn n (x :: l'))) as (H1 & H2 & H3).
      { rewrite length_skipn. cbn [length] in *. lia. }
      split; [cbn [concat]; rewrite H1; apply firstn_skipn|].
      split.
      * constructor; [|exact H2]. rewrite length_firstn. cbn [length]. lia.
      * cbn [length] in *. rewrite H3, length_skipn. cbn [length].
        replace (S (length l') + (n - 1)) with (length l' + 1 * n) by lia.
        rewrite Nat.div_add by lia.
        destruct (le_lt_dec n (S (length l'))) as [Hle|Hlt].
        -- replace (S (length l') - n + (n - 1)) with (length l') by lia. lia.
        -- replace (S (length l') - n + (n - 1)) with (n - 1) by lia.
           rewrite (Nat.div_small (n - 1)) by lia. rewrite (Nat.div_small (length l')) by lia.
           reflexivity.
Qed.

Lemma chunks_props {A} (n : nat) (l : list A) :
  0 < n ->
  concat (chunks n l) = l /\
  Forall (fun c => 1 <= length c <= n) (chunks n l) /\
  length (chunks n l) = (length l + (n - 1)) / n.
Proof. intros Hn. apply chunks_fuel_props; [exact Hn|lia]. Qed.

Lemma chunks_fuel_map {A B} (f : A -> B) (n fuel : nat) (l : list A) :
  chunks_fuel fuel n (map f l) = map (map f) (chunks_fuel fuel n l).
Proof.
  revert l. induction fuel as [|fuel IH]; intros l; [reflexivity|].
  destruct l as [|x l]; [reflexivity|].
  cbn [chunks_fuel map]. rewrite <- (map_cons f x l).
  rewrite firstn_map, skipn_map, IH. reflexivity.
Qed.

Lemma chunks_map {A B} (f : A -> B) (n : nat) (l : list A) :
  chunks n (map f l) = map (map f) (chunks n l).
Proof. unfold chunks. rewrite length_map. apply chunks_fuel_map. Qed.

Definition comma_free (s : string) : Prop := ~ In ","%char (list_ascii_of_string s).

Lemma split_comma_nonempty (s : string) : split_comma s <> [].
Proof.
  induction s as [|c s IH]; [discriminate|]. cbn.
  destruct (split_comma s); [contradiction|]. destruct (Ascii.eqb c ","%char); discriminate.
Qed.

Lemma append_cons (c : ascii) (x s : string) : (String c x ++ s)%string = String c (x ++ s).
Proof. reflexivity. Qed.

Lemma append_empty (x : string) : (x ++ "")%string = x.
Proof. induction x as [|c x IH]; [reflexivity|]. by rewrite append_cons, IH. Qed.

Lemma split_comma_app (x s : string) :
  comma_free x ->
  split_comma (x ++ s) =
  match split_comma s with p :: ps => (x ++ p)%string :: ps | [] => [] end.
Proof.
  unfold comma_free. induction x as [|c x IH]; intros Hx.
  - change (split_comma s = match split_comma s with p :: ps => p :: ps | [] => [] end).
    by destruct (split_comma s).
  - simpl. cbn [list_ascii_of_string In] in Hx.
    rewrite IH by tauto. destruct (split_comma s) as [|p ps]; [reflexivity|].
    destruct (Ascii.eqb_spec c ","%char) as [->|]; [tauto|reflexivity].
Qed.


Lemma split_join_comma (l : list string) :
  l <> [] -> Forall comma_free l -> split_comma (join_comma l) = l.
Proof.
  induction l as [|x l IH]; intros Hne Hl; [contradiction|].
  inversion Hl as [|? ? Hx Hl']; subst.
  destruct l as [|y l].
  - cbn [join_comma]. rewrite <- (append_empty x) at 1. rewrite split_comma_app by exact Hx.
    cbn [split_comma]. by rewrite append_empty.
  - change (join_comma (x :: y :: l)) with (x ++ String ","%char (join_comma (y :: l)))%string.
    rewrite split_comma_app by exact Hx. cbn [split_comma].
    rewrite IH by (discriminate || exact Hl'). cbn. by rewrite append_empty.
Qed.

(** The comma-separated keys of the requests for [ids], chunk by chunk. *)
Lemma join_chunks_keys (n : nat) (ids : list string) :
  0 < n -> Forall comma_free ids ->
  concat (map split_comma (map join_comma (chunks n ids))) = ids /\
  Forall (fun k => 1 <= length (split_comma k) <= n) (map join_comma (chunks n ids)) /\
  length (chunks n ids) = (length ids + (n - 1)) / n.
Proof.
  intros Hn Hids. destruct (chunks_props n ids Hn) as (H1 & H2 & H3).
  assert (Hsj : Forall (fun c => split_comma (join_comma c) = c) (chunks n ids)).
  { apply Forall_forall. intros c Hc. apply list_elem_of_In in Hc.
    apply split_join_comma.
    - rewrite Forall_forall in H2. specialize (H2 c (proj2 (list_elem_of_In _ _) Hc)).
      destruct c; cbn in H2; [lia|discriminate].
    - apply Forall_forall. intros y Hy. rewrite Forall_forall in Hids. apply Hids.
      rewrite <- H1. apply list_elem_of_In, in_concat. exists c.
      split; [exact Hc|by apply list_elem_of_In]. }
  rewrite map_map. split; [|split; [|exact H3]].
  - rewrite <- H1 at 2. f_equal. rewrite <- (map_id (chunks n ids)) at 2.
    apply map_ext_in. intros c Hc. rewrite Forall_forall in Hsj.
    apply Hsj, list_elem_of_In, Hc.
  - apply Forall_map. apply Forall_forall. intros c Hc. rewrite Forall_forall in H2, Hsj.
    rewrite (Hsj c Hc). exact (H2 c Hc).
Qed.

End ChunkFacts.

(* ------------------------------------------------------------------------- *)
(** ** plex/mod.rs *)

Module PlexFacts.

Import RStr AddSongs Sync PlexApi ChunkFacts.

Lemma to_hex_digit_not_percent (d : N) : to_hex_digit d <> 37%N.
Proof. unfold to_hex_digit. destruct (d <? 10)%N; lia. Qed.

Lemma to_hex_digit_inj (a b : N) : to_hex_digit a = to_hex_digit b -> a = b.
Proof. unfold to_hex_digit. destruct (N.ltb_spec a 10), (N.ltb_spec b 10); lia. Qed.

Lemma byte_eq (a b : N) : N.shiftr a 4 = N.shiftr b 4 -> N.land a 15 = N.land b 15 -> a = b.
Proof.
  intros H1 H2. rewrite !N.shiftr_div_pow2 in H1. change 15%N with (N.ones 4) in H2.
  rewrite !N.land_ones in H2. rewrite (N.div_mod a (2 ^ 4)), (N.div_mod b (2 ^ 4)) by discriminate.
  congruence.
Qed.

Lemma unreserved_not_percent (b : N) : is_unreserved b = true -> b <> 37%N.
Proof. intros Hb ->. discriminate. Qed.

Lemma length_encode (l : list N) : length l <= length (encode l).
Proof.
  induction l as [|b l IH]; [reflexivity|]. unfold encode in *. cbn [flat_map].
  rewrite length_app.
  assert (1 <= length (encode_byte b)) by (unfold encode_byte; destruct (is_unreserved b); cbn; lia).
  change (length (b :: l)) with (S (length l)). lia.
Qed.

Lemma rev_encode (l : list N) :
  rev (encode l) = flat_map (fun b => rev (encode_byte b)) (rev l).
Proof.
  unfold encode. induction l as [|b l IH]; [reflexivity|]. cbn [flat_map rev].
  rewrite rev_app_distr, IH, flat_map_app. cbn [flat_map]. by rewrite app_nil_r.
Qed.

Lemma revenc_head (b : N) : exists c rest, rev (encode_byte b) = c :: rest /\ c <> 37%N.
Proof.
  unfold encode_byte. destruct (is_unreserved b) eqn:E.
  - exists b, []. split; [reflexivity|]. by apply unreserved_not_percent.
  - eexists _, _. split; [reflexivity|]. apply to_hex_digit_not_percent.
Qed.

Lemma starts_with_cons (x : N) (p : rstr) (y : N) (s : rstr) :
  starts_with (x :: p) (y :: s) = ((x =? y)%N && starts_with p s).
Proof. reflexivity. Qed.

Lemma revenc_no_percent (r : list N) :
  starts_with [37%N] (flat_map (fun b => rev (encode_byte b)) r) = false.
Proof.
  destruct r as [|b r]; [reflexivity|]. cbn [flat_map].
  destruct (revenc_head b) as (c & rest & -> & Hc). cbn [app starts_with].
  destruct (N.eqb_spec 37 c); [congruence|reflexivity].
Qed.

(** In the reversed encoding, the reversed escape of a reserved byte [c]
    starts exactly at the tokens of [c]. *)
Lemma starts_rev_token (c b : N) (r : list N) :
  is_unreserved c = false ->
  starts_with (rev (encode_byte c))
    (rev (encode_byte b) ++ flat_map (fun b => rev (encode_byte b)) r) = (b =? c)%N.
Proof.
  intros Hc. unfold encode_byte at 1. rewrite Hc. cbn [rev app].
  unfold encode_byte at 1. destruct (is_unreserved b) eqn:Eb.
  - assert (Hne : b <> c) by congruence. rewrite (proj2 (N.eqb_neq _ _) Hne).
    cbn [rev app]; rewrite ?starts_with_cons.
    destruct r as [|b' r]; [by rewrite andb_false_r|]. cbn [flat_map].
    unfold encode_byte at 1. destruct (is_unreserved b') eqn:Eb'.
    + cbn [rev app]; rewrite ?starts_with_cons. rewrite revenc_no_percent. by rewrite !andb_false_r.
    + cbn [rev app]; rewrite ?starts_with_cons.
      destruct (N.eqb_spec 37 (to_hex_digit (N.shiftr b' 4))) as [H|_].
      * exfalso. symmetry in H. exact (to_hex_digit_not_percent _ H).
      * cbn [andb]. by rewrite !andb_false_r.
  - cbn [rev app]; rewrite ?starts_with_cons. rewrite N.eqb_refl, !andb_true_r.
    destruct (N.eqb_spec b c) as [->|Hne]; [by rewrite !N.eqb_refl|].
    destruct (N.eqb_spec (to_hex_digit (N.land c 15)) (to_hex_digit (N.land b 15))) as [E1|];
      [|reflexivity].
    destruct (N.eqb_spec (to_hex_digit (N.shiftr c 4)) (to_hex_digit (N.shiftr b 4))) as [E2|];
      [|reflexivity].
    exfalso. apply Hne. apply byte_eq; symmetry; apply to_hex_digit_inj; assumption.
Qed.

Lemma trim_tokens (c : N) :
  is_unreserved c = false -> forall fuel r, length r < fuel ->
  trim_start_matches_fuel fuel (rev (encode_byte c)) (flat_map (fun b => rev (encode_byte b)) r)
  = flat_map (fun b => rev (encode_byte b)) (trim_start_matches_char c r).
Proof.
  intros Hc fuel. induction fuel as [|fuel IH]; intros r Hr; [lia|].
  destruct r as [|b r].
  - cbn [trim_start_matches_fuel flat_map]. unfold encode_byte. rewrite Hc. reflexivity.
  - cbn [trim_start_matches_fuel flat_map trim_start_matches_char].
    rewrite starts_rev_token by exact Hc. destruct (N.eqb_spec b c) as [->|Hne].
    + rewrite drop_app_length. apply IH. cbn [length] in Hr. lia.
    + reflexivity.
Qed.

Lemma trim_end_encode (c : N) (l : list N) :
  is_unreserved c = false ->
  trim_end_matches_str (encode_byte c) (encode l) = encode (trim_end_matches_char c l).
Proof.
  intros Hc. unfold trim_end_matches_str, trim_end_matches_char.
  rewrite rev_encode, trim_tokens.
  - rewrite <- (rev_involutive (trim_start_matches_char c (rev l))) at 1.
    rewrite <- rev_encode. apply rev_involutive.
  - exact Hc.
  - rewrite length_rev. pose proof (length_encode l). lia.
Qed.

Lemma encode_byte_unreserved (b : N) : is_unreserved b = true -> encode_byte b = [b].
Proof. intros Hb. unfold encode_byte. by rewrite Hb. Qed.

Lemma encode_byte_reserved (b : N) :
  is_unreserved b = false ->
  encode_byte b = [37%N; to_hex_digit (N.shiftr b 4); to_hex_digit (N.land b 15)].
Proof. intros Hb. unfold encode_byte. by rewrite Hb. Qed.

Lemma replace_fuel_cons (fuel : nat) (pat to : rstr) (c : N) (s : rstr) :
  replace_fuel (S fuel) pat to (c :: s) =
  if starts_with pat (c :: s) then to ++ replace_fuel fuel pat to (drop (length pat) (c :: s))
  else c :: replace_fuel fuel pat to s.
Proof. reflexivity. Qed.

Lemma replace_tokens (fuel : nat) (l : list N) :
  length (encode l) < fuel ->
  replace_fuel fuel (lit "%29") [] (encode l) = encode (List.filter (fun b => negb (b =? 41)%N) l).
Proof.
  change (lit "%29") with [37%N; 50%N; 57%N].
  revert fuel. induction l as [|b l IH]; intros fuel Hf.
  - destruct fuel; [cbn in Hf; lia|reflexivity].
  - unfold encode in *. cbn [flat_map List.filter] in *. rewrite length_app in Hf.
    destruct (is_unreserved b) eqn:Eb.
    + rewrite (encode_byte_unreserved b Eb) in *.
      assert (Hb41 : b <> 41%N) by (intros ->; discriminate).
      rewrite (proj2 (N.eqb_neq _ _) Hb41). cbn [negb flat_map].
      rewrite (encode_byte_unreserved b Eb).
      destruct fuel as [|fuel]; [cbn [length] in Hf; lia|]. cbn [app].
      rewrite replace_fuel_cons, starts_with_cons.
      rewrite (proj2 (N.eqb_neq 37 b)) by (intros H; exact (unreserved_not_percent b Eb (eq_sym H))).
      cbn [andb]. f_equal. apply IH. cbn [length] in Hf. lia.
    + rewrite (encode_byte_reserved b Eb) in *.
      destruct fuel as [|fuel]; cbn [length] in Hf; try lia.
      cbn [app]. rewrite replace_fuel_cons, !starts_with_cons, N.eqb_refl. cbn [andb].
      destruct (N.eqb_spec b 41) as [->|Hne].
      * assert (E : ((50 =? to_hex_digit (N.shiftr 41 4))%N &&
                    ((57 =? to_hex_digit (N.land 41 15))%N && starts_with [] (flat_map encode_byte l)))
                    = true) by reflexivity.
        rewrite E. cbn [negb app length drop]. apply IH. lia.
      * assert (Hd : (50 =? to_hex_digit (N.shiftr b 4))%N && (57 =? to_hex_digit (N.land b 15))%N
                     = false).
        { destruct (N.eqb_spec 50 (to_hex_digit (N.shiftr b 4))) as [E1|]; [|reflexivity].
          destruct (N.eqb_spec 57 (to_hex_digit (N.land b 15))) as [E2|]; [|reflexivity].
          exfalso. apply Hne. apply byte_eq.
          - apply to_hex_digit_inj. rewrite <- E1. reflexivity.
          - apply to_hex_digit_inj. rewrite <- E2. reflexivity. }
        change (starts_with [] ?s) with true. rewrite andb_true_r, Hd.
        cbn [negb flat_map]. rewrite (encode_byte_reserved b Eb). cbn [app].
        destruct fuel as [|[|fuel]]; try lia.
        rewrite !replace_fuel_cons, !starts_with_cons.
        rewrite (proj2 (N.eqb_neq 37 (to_hex_digit (N.shiftr b 4))))
          by (intros H; exact (to_hex_digit_not_percent _ (eq_sym H))).
        rewrite (proj2 (N.eqb_neq 37 (to_hex_digit (N.land b 15))))
          by (intros H; exact (to_hex_digit_not_percent _ (eq_sym H))).
        cbn [andb]. do 3 f_equal. apply IH. lia.
Qed.

Lemma owner_retain_all_owned (o : string) (ds src : list Playlist) :
  Forall (fun d => pl_owner d = Some o) ds -> owner_retain o ds src = (ds, src).
Proof.
  intros H. induction H as [|d ds Hd _ IH]; [reflexivity|].
  cbn [owner_retain]. unfold option_string_eqb. rewrite bool_decide_true by exact Hd.
  cbn [negb]. by rewrite IH.
Qed.

Lemma owner_retain_none_owned (o : string) (ds src : list Playlist) :
  Forall (fun d => pl_owner d <> Some o) ds -> fst (owner_retain o ds src) = [].
Proof.
  intros H. revert src. induction H as [|d ds Hd _ IH]; intros src; [reflexivity|].
  cbn [owner_retain]. unfold option_string_eqb. rewrite bool_decide_false by exact Hd.
  cbn [negb]. apply IH.
Qed.

Lemma get_playlists_info_owner (user_id : string) (ps : list PlexPlaylist) :
  Forall (fun p => pl_owner p = Some user_id) (get_playlists_info user_id ps).
Proof.
  unfold get_playlists_info. apply Forall_forall. intros p Hp.
  apply list_elem_of_In, in_map_iff in Hp. destruct Hp as (q & <- & _). reflexivity.
Qed.

(** X10: every playlist [PlexApi::get_playlists_info] returns is owned by
    the logged-in user [user_id]. So the owner filter of
    [synchronize_playlists] keeps all of them, dropping no source playlist,
    when the destination owner is [user_id], and keeps none otherwise. *)
Theorem plex_playlists_owner_retain (user_id dst_owner : string) (ps : list PlexPlaylist)
    (src : list Playlist) :
  fst (owner_retain dst_owner (get_playlists_info user_id ps) src) =
    (if str_eqb user_id dst_owner then get_playlists_info user_id ps else []) /\
  (user_id = dst_owner -> snd (owner_retain dst_owner (get_playlists_info user_id ps) src) = src).
Proof.
  pose proof (get_playlists_info_owner user_id ps) as Ho. split.
  - unfold str_eqb. destruct (bool_decide_reflect (user_id = dst_owner)) as [<-|Hne].
    + by rewrite owner_retain_all_owned.
    + apply owner_retain_none_owned. eapply Forall_impl; [exact Ho|].
      intros p -> Heq. apply Hne. congruence.
  - intros <-. by rewrite owner_retain_all_owned.
Qed.

(** X11: [PlexApi::encode_query] is the percent-encoding of the query
    with its trailing '/' bytes removed, then its trailing '?' bytes
    removed, and every ')' byte dropped. *)
Theorem encode_query_spec (query : list N) :
  encode_query query =
  encode (List.filter (fun b => negb (b =? 41)%N)
            (trim_end_matches_char 63 (trim_end_matches_char 47 query))).
Proof.
  unfold encode_query.
  change (lit "%2F") with (encode_byte 47). rewrite trim_end_encode by reflexivity.
  change (lit "%3F") with (encode_byte 63). rewrite trim_end_encode by reflexivity.
  unfold replace_str. apply replace_tokens. lia.
Qed.

(** X12: [PlexApi::add_songs_to_playlist] sends one request per chunk of
    at most 5 songs, with uri ["{uri_root}/library/metadata/{k}"]. Split at
    the commas and concatenated, the keys [k] give the ids of the songs in
    order; each request carries 1 to 5 keys, and there are ceil(n/5)
    requests for n songs. This holds when no song id contains a comma. *)
Theorem plex_add_songs_requests_keys (uri_root : string) (songs : list Song) :
  Forall (fun s => comma_free (song_id s)) songs ->
  exists keys,
    plex_add_songs_requests uri_root songs =
      map (fun k => (uri_root ++ "/library/metadata/" ++ k)%string) keys /\
    concat (map split_comma keys) = map song_id songs /\
    Forall (fun k => 1 <= length (split_comma k) <= 5) keys /\
    length keys = (length songs + 4) / 5.
Proof.
  intros Hs. exists (map join_comma (chunks 5 (map song_id songs))).
  destruct (join_chunks_keys 5 (map song_id songs)) as (H1 & H2 & H3);
    [lia|apply Forall_map; exact Hs|].
  split; [|split; [exact H1|split; [exact H2|]]].
  - unfold plex_add_songs_requests. rewrite chunks_map, !map_map. reflexivity.
  - rewrite length_map, H3, length_map. reflexivity.
Qed.

Lemma plex_add_songs_requests_keys_witness :
  Forall (fun s => comma_free (song_id s))
    (map SyncInputs.src_song ["1"; "2"; "3"; "4"; "5"; "6"]) /\
  exists keys,
    plex_add_songs_requests "server://m/lib" (map SyncInputs.src_song ["1"; "2"; "3"; "4"; "5"; "6"]) =
      map (fun k => ("server://m/lib" ++ "/library/metadata/" ++ k)%string) keys /\
    concat (map split_comma keys) = map song_id (map SyncInputs.src_song ["1"; "2"; "3"; "4"; "5"; "6"]) /\
    Forall (fun k => 1 <= length (split_comma k) <= 5) keys /\
    length keys = (length (map SyncInputs.src_song ["1"; "2"; "3"; "4"; "5"; "6"]) + 4) / 5.
Proof.
  assert (H : Forall (fun s => comma_free (song_id s))
                (map SyncInputs.src_song ["1"; "2"; "3"; "4"; "5"; "6"])).
  { repeat constructor; unfold comma_free; simpl; intuition discriminate. }
  split; [exact H|]. apply (plex_add_songs_requests_keys "server://m/lib" _ H).
Defined.

End PlexFacts.

(* ------------------------------------------------------------------------- *)
(** ** tidal/mod.rs: [TidalApi::add_likes] *)

Module TidalFacts.

Import AddSongs TidalLikes ChunkFacts.

(** X13: [TidalApi::add_likes] sends no request for no song, and
    otherwise one request per chunk of at most 100 track ids. Split at the
    commas and concatenated, the [trackIds] values give the ids of the
    songs in order; each request carries 1 to 100 ids, and there are
    ceil(n/100) requests for n songs. This holds when no song id contains a
    comma. *)
Theorem tidal_add_likes_requests_keys (songs : list Song) :
  Forall (fun s => comma_free (song_id s)) songs ->
  concat (map split_comma (tidal_add_likes_requests songs)) = map song_id songs /\
  Forall (fun k => 1 <= length (split_comma k) <= 100) (tidal_add_likes_requests songs) /\
  length (tidal_add_likes_requests songs) = (length songs + 99) / 100.
Proof.
  intros Hs. destruct songs as [|s rest]; [repeat split; constructor|].
  destruct (join_chunks_keys 100 (map song_id (s :: rest))) as (H1 & H2 & H3);
    [lia|apply Forall_map; exact Hs|].
  unfold tidal_add_likes_requests. split; [exact H1|split; [exact H2|]].
  rewrite length_map, H3, length_map. reflexivity.
Qed.

Lemma tidal_add_likes_requests_keys_witness :
  Forall (fun s => comma_free (song_id s)) (map SyncInputs.src_song ["7"; "8"]) /\
  concat (map split_comma (tidal_add_likes_requests (map SyncInputs.src_song ["7"; "8"])))
    = map song_id (map SyncInputs.src_song ["7"; "8"]) /\
  Forall (fun k => 1 <= length (split_comma k) <= 100)
    (tidal_add_likes_requests (map SyncInputs.src_song ["7"; "8"])) /\
  length (tidal_add_likes_requests (map SyncInputs.src_song ["7"; "8"]))
    = (length (map SyncInputs.src_song ["7"; "8"]) + 99) / 100.
Proof.
  assert (H : Forall (fun s => comma_free (song_id s)) (map SyncInputs.src_song ["7"; "8"])).
  { repeat constructor; unfold comma_free; simpl; intuition discriminate. }
  split; [exact H|]. apply (tidal_add_likes_requests_keys _ H).
Defined.

End TidalFacts.

(* ------------------------------------------------------------------------- *)
(** ** yt_music: playlist ids, listing, removal and the sign-in check *)

Module YtFacts.

Import RStr Duration YtPlaylists.

Lemma starts_with_app_self (p s : rstr) : starts_with p (p ++ s) = true.
Proof. induction p as [|c p IH]; [reflexivity|]. cbn. by rewrite N.eqb_refl. Qed.

(** X14: [YtMusicApi::clean_playlist_id] strips one "VL" from a browse id
    "VL" ++ x, and [get_playlist_songs] puts it back, so the request goes
    to the browse id the playlist was listed under, except when x itself
    starts with "VL": then the request goes to x. *)
Theorem playlist_browse_id_round_trip (x : rstr) :
  playlist_browse_id (clean_playlist_id (lit "VL" ++ x)) =
  if starts_with (lit "VL") x then x else lit "VL" ++ x.
Proof.
  unfold clean_playlist_id, strip_prefix. rewrite starts_with_app_self.
  change (length (lit "VL")) with 2. change (lit "VL") with [86%N; 76%N] at 2.
  cbn [drop app]. reflexivity.
Qed.

Definition fields_of (m : Mtrir) (p : rstr * rstr * rstr) : Prop :=
  exists id name owner,
    mtrir_id m = Some id /\ mtrir_name m = Some name /\ mtrir_owner m = Some owner /\
    p = (clean_playlist_id id, trim name, trim owner).

Definition missing_field (m : Mtrir) : Prop :=
  mtrir_id m = None \/ mtrir_name m = None \/ mtrir_owner m = None.

Lemma mtrirs_to_playlists_not_panic (ms : list Mtrir) : mtrirs_to_playlists ms <> RPanic.
Proof.
  induction ms as [|m ms IH]; cbn [mtrirs_to_playlists]; [discriminate|].
  destruct (mtrir_id m), (mtrir_name m), (mtrir_owner m); try discriminate.
  destruct (mtrirs_to_playlists ms); [discriminate|discriminate|contradiction].
Qed.

Lemma mtrirs_to_playlists_ok (ms : list Mtrir) (ps : list (rstr * rstr * rstr)) :
  mtrirs_to_playlists ms = ROk ps <-> Forall2 fields_of ms ps.
Proof.
  revert ps. induction ms as [|m ms IH]; intros ps; cbn [mtrirs_to_playlists].
  - split; [intros [= <-]; constructor|intros H; inversion H; reflexivity].
  - split.
    + destruct (mtrir_id m) as [id|] eqn:Ei; [|discriminate].
      destruct (mtrir_name m) as [name|] eqn:En; [|discriminate].
      destruct (mtrir_owner m) as [owner|] eqn:Eo; [|discriminate].
      destruct (mtrirs_to_playlists ms) as [ps'| |] eqn:Er; try discriminate.
      intros [= <-]. constructor.
      * exists id, name, owner. auto.
      * by apply IH.
    + intros H. inversion H as [|? p ? ps' Hp Hr]; subst.
      destruct Hp as (id & name & owner & -> & -> & -> & ->).
      apply IH in Hr. by rewrite Hr.
Qed.

Lemma mtrirs_to_playlists_err (ms : list Mtrir) :
  mtrirs_to_playlists ms = RErr <-> Exists missing_field ms.
Proof.
  induction ms as [|m ms IH]; cbn [mtrirs_to_playlists].
  - split; [discriminate|intros H; inversion H].
  - unfold missing_field at 1. rewrite Exists_cons.
    destruct (mtrir_id m) as [id|]; [|split; [auto|reflexivity]].
    destruct (mtrir_name m) as [name|]; [|split; [auto|reflexivity]].
    destruct (mtrir_owner m) as [owner|]; [|split; [auto|reflexivity]].
    pose proof (mtrirs_to_playlists_not_panic ms) as Hp.
    destruct (mtrirs_to_playlists ms) as [ps| |]; [|rewrite <- IH|contradiction].
    + split; [discriminate|]. intros [H|H]; [intuition discriminate|].
      apply IH in H. discriminate.
    + split; [auto|]. intros [H|H]; [intuition discriminate|exact H].
Qed.

(** X15: [TryInto<Playlists> for YtMusicResponse] never looks at the first
    two entries. It succeeds exactly when every later entry has an id, a
    name and an owner, and then gives one playlist per entry, in order,
    with the id cleaned and the name and owner trimmed; if one later entry
    lacks a field, the whole listing fails. *)
Theorem yt_playlists_try_into_spec (m0 m1 : Mtrir) (ms : list Mtrir)
    (ps : list (rstr * rstr * rstr)) :
  (yt_playlists_try_into (Some (m0 :: m1 :: ms)) = ROk ps <-> Forall2 fields_of ms ps) /\
  (yt_playlists_try_into (Some (m0 :: m1 :: ms)) = RErr <-> Exists missing_field ms).
Proof.
  cbn [yt_playlists_try_into skipn].
  split; [apply mtrirs_to_playlists_ok|apply mtrirs_to_playlists_err].
Qed.

Lemma filter_filter_andb {A} (f g : A -> bool) (l : list A) :
  List.filter g (List.filter f l) = List.filter (fun x => f x && g x) l.
Proof.
  induction l as [|x l IH]; [reflexivity|]. cbn.
  destruct (f x); cbn; [destruct (g x); cbn; by rewrite IH|exact IH].
Qed.

Lemma remove_fold (song_eq : Song -> Song -> bool) (songs : list Song) (playlist : Playlist) :
  fold_left (fun p song =>
               set_songs p (List.filter (fun s => negb (song_eq s song)) (pl_songs p)))
            songs playlist =
  set_songs playlist
    (List.filter (fun s => forallb (fun song => negb (song_eq s song)) songs) (pl_songs playlist)).
Proof.
  revert playlist. induction songs as [|song songs IH]; intros playlist.
  - cbn [fold_left forallb negb]. unfold set_songs.
    assert (Ht : forall l : list Song, List.filter (fun _ => true) l = l).
    { induction l as [|x l IHl]; [reflexivity|]. cbn. by rewrite IHl. }
    rewrite Ht. by destruct playlist.
  - cbn [fold_left]. rewrite IH. cbn [pl_songs set_songs]. rewrite filter_filter_andb.
    unfold set_songs. cbn [pl_id pl_name pl_owner]. reflexivity.
Qed.

Lemma remove_actions_none (songs : list Song) :
  remove_actions songs = None <-> Exists (fun s => song_sid s = None) songs.
Proof.
  induction songs as [|song songs IH]; cbn [remove_actions].
  - split; [discriminate|intros H; inversion H].
  - rewrite Exists_cons. destruct (song_sid song) as [sid|]; [|split; auto].
    destruct (remove_actions songs); rewrite <- IH; split; intuition discriminate.
Qed.

(** X16: [YtMusicApi::remove_songs_from_playlist] first removes from the
    in-memory playlist every song equal to one of the given songs, keeping
    the order of the others. If a given song has no setVideoId, it then
    fails without sending the edit request, the playlist value being
    already changed. *)
Theorem yt_remove_songs_spec (song_eq : Song -> Song -> bool) (remote_ok : bool)
    (playlist : Playlist) (songs : list Song) :
  let '(p, request, result) := yt_remove_songs song_eq remote_ok playlist songs in
  pl_songs p =
    List.filter (fun s => forallb (fun song => negb (song_eq s song)) songs) (pl_songs playlist) /\
  pl_id p = pl_id playlist /\
  (request = None <-> Exists (fun s => song_sid s = None) songs) /\
  (request = None -> result = RErr).
Proof.
  unfold yt_remove_songs. rewrite remove_fold. pose proof (remove_actions_none songs) as Hn.
  destruct (remove_actions songs) as [actions|]; cbn.
  - split; [reflexivity|]. split; [reflexivity|].
    split; [split; [discriminate|intros H; apply Hn in H; discriminate]|discriminate].
  - split; [reflexivity|]. split; [reflexivity|].
    split; [split; [intros _; by apply Hn|reflexivity]|reflexivity].
Qed.

Lemma contains_str_app_l (p a s : rstr) : contains_str p s = true -> contains_str p (a ++ s) = true.
Proof.
  intros H. induction a as [|c a IH]; [exact H|]. cbn [app contains_str].
  rewrite IH. apply orb_true_r.
Qed.

Lemma contains_str_mid (p a b : rstr) : contains_str p (a ++ p ++ b) = true.
Proof.
  apply contains_str_app_l. destruct p as [|c p]; [by destruct b|].
  pose proof (starts_with_app_self (c :: p) b) as H. cbn [app] in H |- *.
  cbn [contains_str]. by rewrite H.
Qed.

(** X17: [YtMusicApi::check_authentication_errors] rejects a response
    whose tracking parameters say that "logged_in" is "1" as soon as any
    other parameter of the text has the value "0": the key and the value
    are looked for anywhere, independently of each other. *)
Theorem check_authentication_errors_value_anywhere (a b c : rstr) :
  check_authentication_errors
    (a ++ key_logged_in ++ lit "," ++ quoted "value" ++ lit ":" ++ quoted "1" ++ b ++ value_0 ++ c)
  = RErr.
Proof.
  unfold check_authentication_errors, is_not_logged_in.
  rewrite contains_str_mid.
  replace (a ++ key_logged_in ++ lit "," ++ quoted "value" ++ lit ":" ++ quoted "1" ++ b ++ value_0 ++ c)
    with ((a ++ key_logged_in ++ lit "," ++ quoted "value" ++ lit ":" ++ quoted "1" ++ b)
            ++ value_0 ++ c) by (by rewrite <- !app_assoc).
  rewrite contains_str_mid. cbn [orb andb]. by rewrite orb_true_r.
Qed.

End YtFacts.

(* ------------------------------------------------------------------------- *)
(** ** yt_music/mod.rs: the retry loop of [make_request] *)

Module RetryBoundFacts.

Import Retry.

Definition backoffs : list nat := [3; 9; 27; 81; 243].

Lemma retry_backoff (r : HttpResponse) (j d : nat) :
  handle_rate_limit_with_retry r j = Retry d -> j < 5 /\ skipn j backoffs = d :: skipn (S j) backoffs.
Proof.
  unfold handle_rate_limit_with_retry.
  destruct (negb (is_rate_limited r)); [discriminate|].
  destruct (Nat.leb_spec MAX_RETRIES j) as [Hj|Hj]; [discriminate|].
  intros [= <-]. unfold MAX_RETRIES in Hj. split; [exact Hj|].
  destruct j as [|[|[|[|[|j]]]]]; try reflexivity. lia.
Qed.

Lemma make_request_attempts_bounded (atts : list Attempt) (j : nat) :
  j <= 5 ->
  exists k, k <= 5 - j /\ snd (make_request_attempts atts j) = firstn k (skipn j backoffs) /\
    (fst (make_request_attempts atts j) <> Outcome ReqNoResponse ->
     k < length atts /\
     forall more, make_request_attempts (firstn (S k) atts ++ more) j = make_request_attempts atts j).
Proof.
  revert j. induction atts as [|a atts IH]; intros j Hj.
  - exists 0. split; [lia|]. split; [reflexivity|]. cbn. tauto.
  - destruct a as [r|]; cbn [make_request_attempts].
    2:{ exists 0. split; [lia|]. split; [reflexivity|]. intros _. split; [cbn; lia|].
        intros more. reflexivity. }
    destruct (text_auth_failure r) eqn:Ea.
    + exists 0. split; [lia|]. split; [reflexivity|]. intros _. split; [cbn; lia|].
      intros more. cbn. by rewrite Ea.
    + destruct (handle_rate_limit_with_retry r j) as [d| |] eqn:Eh.
      * destruct (retry_backoff r j d Eh) as [Hj5 Hs].
        destruct (IH (S j) ltac:(lia)) as (k & Hk & Hsl & Hend).
        destruct (make_request_attempts atts (S j)) as [o sleeps] eqn:Er. cbn [fst snd] in *.
        exists (S k). split; [lia|]. split; [rewrite Hs, Hsl; reflexivity|].
        intros Ho. destruct (Hend Ho) as [Hlt Hmore]. split; [cbn; lia|].
        intros more. cbn [firstn app make_request_attempts]. rewrite Ea, Eh, Hmore. reflexivity.
      * destruct (is_client_error (status r) || is_server_error (status r)) eqn:Ec;
          exists 0; (split; [lia|]); (split; [reflexivity|]); intros _; (split; [cbn; lia|]);
          intros more; cbn [firstn app make_request_attempts]; by rewrite Ea, Eh, Ec.
      * exists 0. split; [lia|]. split; [reflexivity|]. intros _. split; [cbn; lia|].
        intros more. cbn [firstn app make_request_attempts]. by rewrite Ea, Eh.
Qed.

(** X18: whatever each attempt gives (a response, or a failed send, body
    read or debug write), the retry loop of [make_request] sleeps a prefix
    of 3, 9, 27, 81, 243 seconds: at most 5 times and never longer than
    243 s. When it ends, it has made one attempt more than it slept, and
    the later attempts play no part. *)
Theorem make_request_bounded (atts : list Attempt) :
  exists k, k <= 5 /\ snd (make_request_attempts atts 0) = firstn k backoffs /\
    (fst (make_request_attempts atts 0) <> Outcome ReqNoResponse ->
     k < length atts /\
     forall more, make_request_attempts (firstn (S k) atts ++ more) 0 = make_request_attempts atts 0).
Proof.
  destruct (make_request_attempts_bounded atts 0 ltac:(lia)) as (k & Hk & Hs & Hend).
  exists k. split; [lia|]. split; [exact Hs|]. exact Hend.
Qed.

End RetryBoundFacts.

(* ------------------------------------------------------------------------- *)
(** ** yt_music/mod.rs: [YtMusicApi::add_songs_to_playlist] *)

Module YtAddFacts.

Import Duration AddSongs.

Lemma yt_add_songs_success (remote : list Song -> EditResponse) (fuel : nat)
    (playlist : Playlist) (songs : list Song) :
  remote songs = EditSuccess ->
  yt_add_songs remote fuel playlist songs = (set_songs playlist (pl_songs playlist ++ songs), ROk tt).
Proof. intros H. destruct fuel; cbn [yt_add_songs]; by rewrite H. Qed.

(** X19: when YouTube Music answers the whole batch with a "Duplicates"
    dialog and then accepts both halves, [YtMusicApi::add_songs_to_playlist]
    returns Ok with every submitted song appended twice to the in-memory
    playlist: once before the first request, and once more by the
    recursive calls on the halves. *)
Theorem yt_add_songs_duplicates_doubled (remote : list Song -> EditResponse)
    (playlist : Playlist) (songs : list Song) :
  1 < length songs ->
  remote songs = EditDuplicatesDialog ->
  remote (firstn (length songs / 2) songs) = EditSuccess ->
  remote (skipn (length songs / 2) songs) = EditSuccess ->
  yt_add_songs_to_playlist remote playlist songs =
    (set_songs playlist (pl_songs playlist ++ songs ++ songs), ROk tt).
Proof.
  intros Hlen Hd H1 H2. unfold yt_add_songs_to_playlist.
  destruct (length songs) as [|fuel] eqn:El; [lia|].
  cbn [yt_add_songs]. rewrite Hd, El.
  rewrite (proj2 (Nat.ltb_lt 1 (S fuel)) Hlen).
  rewrite (yt_add_songs_success remote fuel _ _ H1), (yt_add_songs_success remote fuel _ _ H2).
  unfold set_songs. cbn [pl_songs pl_id pl_name pl_owner].
  rewrite <- !app_assoc, firstn_skipn. reflexivity.
Qed.

Lemma yt_add_songs_duplicates_doubled_witness :
  let remote := fun b : list Song => if length b =? 2 then EditDuplicatesDialog else EditSuccess in
  let songs := [SyncInputs.src_song "a"; SyncInputs.src_song "b"] in
  yt_add_songs_to_playlist remote AddSongsInputs.empty_playlist songs =
    (set_songs AddSongsInputs.empty_playlist
       (pl_songs AddSongsInputs.empty_playlist ++ songs ++ songs), ROk tt).
Proof.
  intros remote songs.
  apply yt_add_songs_duplicates_doubled; vm_compute; reflexivity.
Defined.

End YtAddFacts.

(* ------------------------------------------------------------------------- *)
(** ** sync.rs: the batch of [synchronize_playlists] and [synchronize] *)

Module SyncTopFacts.

Import Duration Sync SyncTop.

Lemma ForallOrdPairs_snoc {A} (R : A -> A -> Prop) (l : list A) (x : A) :
  ForallOrdPairs R l -> Forall (fun a => R a x) l -> ForallOrdPairs R (l ++ [x]).
Proof.
  induction l as [|a l IH]; intros Hp Hf; cbn.
  - repeat constructor.
  - inversion Hp as [|? ? Ha Hl]; subst. inversion Hf as [|? ? Hax Hfl]; subst.
    constructor; [|by apply IH]. apply Forall_app. split; [exact Ha|]. by constructor.
Qed.

Lemma contains_false (song_eq : Song -> Song -> bool) (l : list Song) (x : Song) :
  contains song_eq l x = false -> Forall (fun a => song_eq a x = false) l.
Proof.
  unfold contains. intros H. apply Forall_forall. intros a Ha.
  destruct (song_eq a x) eqn:E; [|reflexivity].
  exfalso. apply list_elem_of_In in Ha.
  assert (existsb (fun e => song_eq e x) l = true) by (apply existsb_exists; eauto).
  congruence.
Qed.

Lemma contains_app_l (song_eq : Song -> Song -> bool) (l l' : list Song) (x : Song) :
  contains song_eq l x = true -> contains song_eq (l ++ l') x = true.
Proof. unfold contains. rewrite existsb_app. intros ->. reflexivity. Qed.

Lemma build_to_sync_gen (song_eq : Song -> Song -> bool) (present ds acc : list Song) :
  Forall (fun s => contains song_eq present s = false) acc ->
  ForallOrdPairs (fun a b => song_eq a b = false) acc ->
  let r := build_to_sync song_eq present ds acc in
  (exists extra, r = acc ++ extra /\ incl extra ds) /\
  Forall (fun s => contains song_eq present s = false) r /\
  ForallOrdPairs (fun a b => song_eq a b = false) r /\
  Forall (fun d => contains song_eq present d = true \/ contains song_eq r d = true
                   \/ song_eq d d = false) ds.
Proof.
  revert acc. induction ds as [|d ds IH]; intros acc Hp Ho; cbn [build_to_sync].
  - split; [exists []; split; [by rewrite app_nil_r|intros ? []]|]. auto.
  - destruct (contains song_eq present d) eqn:Ep.
    + destruct (IH acc Hp Ho) as ((extra & Hr & Hi) & Hp' & Ho' & Hf).
      split; [exists extra; split; [exact Hr|intros x Hx; right; by apply Hi]|].
      split; [exact Hp'|]. split; [exact Ho'|]. constructor; [auto|exact Hf].
    + destruct (contains song_eq acc d) eqn:Ea.
      * destruct (IH acc Hp Ho) as ((extra & Hr & Hi) & Hp' & Ho' & Hf).
        split; [exists extra; split; [exact Hr|intros x Hx; right; by apply Hi]|].
        split; [exact Hp'|]. split; [exact Ho'|].
        constructor; [|exact Hf]. right; left. rewrite Hr. by apply contains_app_l.
      * assert (Hp1 : Forall (fun s => contains song_eq present s = false) (acc ++ [d])).
        { apply Forall_app. split; [exact Hp|by constructor]. }
        assert (Ho1 : ForallOrdPairs (fun a b => song_eq a b = false) (acc ++ [d])).
        { apply ForallOrdPairs_snoc; [exact Ho|by apply contains_false]. }
        destruct (IH (acc ++ [d]) Hp1 Ho1) as ((extra & Hr & Hi) & Hp' & Ho' & Hf).
        split.
        { exists (d :: extra). split; [by rewrite Hr, <- app_assoc|].
          intros x [<-|Hx]; [left; reflexivity|right; by apply Hi]. }
        split; [exact Hp'|]. split; [exact Ho'|]. constructor; [|exact Hf].
        rewrite Hr, <- app_assoc. cbn [app].
        destruct (song_eq d d) eqn:Edd; [|right; right; reflexivity].
        right; left. unfold contains. rewrite existsb_app. cbn. rewrite Edd. apply orb_true_r.
Qed.

(** X20: the batch [synchronize_playlists] passes to
    [add_songs_to_playlist] is made of search results. None of them is
    equal (==) to a song of the destination playlist, and none is equal to
    an earlier song of the batch. Every search result not equal to a song
    of the playlist is in the batch or equal to a song of it, unless it is
    not equal to itself. *)
Theorem build_to_sync_batch_spec (song_eq : Song -> Song -> bool) (present dst_songs : list Song) :
  let to_sync := build_to_sync song_eq present dst_songs [] in
  incl to_sync dst_songs /\
  Forall (fun s => contains song_eq present s = false) to_sync /\
  ForallOrdPairs (fun a b => song_eq a b = false) to_sync /\
  Forall (fun d => contains song_eq present d = true \/ contains song_eq to_sync d = true
                   \/ song_eq d d = false) dst_songs.
Proof.
  destruct (build_to_sync_gen song_eq present dst_songs [] ltac:(constructor) ltac:(constructor))
    as ((extra & Hr & Hi) & Hp & Ho & Hf).
  cbn [app] in Hr. split; [rewrite Hr; exact Hi|]. auto.
Qed.

Lemma new_likes_loop_spec (song_eq : Song -> Song -> bool) (search_song : Song -> option Song)
    (dst_likes src_likes : list Song) (s : Song) :
  In s (new_likes_loop song_eq search_song dst_likes src_likes) <->
  exists l, In l src_likes /\ contains song_eq dst_likes l = false /\
            search_song l = Some s /\ contains song_eq dst_likes s = false.
Proof.
  induction src_likes as [|l ls IH]; cbn [new_likes_loop].
  - split; [intros []|intros (l & [] & _)].
  - destruct (contains song_eq dst_likes l) eqn:El.
    + rewrite IH. split.
      * intros (l' & Hin & H). exists l'. split; [right; exact Hin|exact H].
      * intros (l' & [<-|Hin] & H); [rewrite El in H; destruct H; discriminate|].
        exists l'. auto.
    + destruct (search_song l) as [song|] eqn:Es.
      * destruct (contains song_eq dst_likes song) eqn:Ed.
        -- rewrite IH. split.
           ++ intros (l' & Hin & H). exists l'. split; [right; exact Hin|exact H].
           ++ intros (l' & [<-|Hin] & H2 & H3 & H4).
              ** rewrite Es in H3. injection H3 as <-. congruence.
              ** exists l'. auto.
        -- cbn [In]. rewrite IH. split.
           ++ intros [<-|(l' & Hin & H)]; [exists l; auto|].
              exists l'. split; [right; exact Hin|exact H].
           ++ intros (l' & [<-|Hin] & H2 & H3 & H4).
              ** left. rewrite Es in H3. congruence.
              ** right. exists l'. auto.
      * rewrite IH. split.
        -- intros (l' & Hin & H). exists l'. split; [right; exact Hin|exact H].
        -- intros (l' & [<-|Hin] & H2 & H3 & H4); [congruence|]. exists l'. auto.
Qed.

(** X21: the likes block of [synchronize] makes exactly one
    [add_likes] call, even when there is nothing to like. The songs it
    likes are exactly the matches, found by [search_song], of the source
    likes not equal to a destination like, when the match itself is not
    equal to a destination like. *)
Theorem sync_likes_block_spec (song_eq : Song -> Song -> bool)
    (search_song : Song -> option Song) (src_likes : list Song) (w : World) :
  exists new_likes,
    sync_likes_block song_eq search_song src_likes w = add_likes w new_likes /\
    forall s, In s new_likes <->
      exists l, In l src_likes /\ contains song_eq (remote_likes w) l = false /\
                search_song l = Some s /\ contains song_eq (remote_likes w) s = false.
Proof.
  exists (new_likes_loop song_eq search_song (remote_likes w) src_likes).
  split; [reflexivity|]. intros s. apply new_likes_loop_spec.
Qed.

(** X22: [synchronize] fails with the "different countries" error, before
    any request is sent, exactly when --diff-country is off, neither side is
    YouTube Music or Plex, and the country codes differ. A run with a
    YouTube Music or Plex side never fails this check, whatever the codes. *)
Theorem synchronize_country_guard (dst_type : MusicApiType) (song_eq : Song -> Song -> bool)
    (search_song : Song -> option Song) (dst_account : string) (to_lowercase : string -> string)
    (diff_country sync_likes like_all : bool) (src_type : MusicApiType)
    (src_country dst_country : string) (src_playlists : list Playlist) (src_likes : list Song)
    (skip_playlists : list string) (dst_owner : string) (w : World) :
  let r := synchronize dst_type song_eq search_song dst_account to_lowercase diff_country sync_likes like_all
             src_type src_country dst_country src_playlists src_likes skip_playlists dst_owner w in
  (r = RErr <->
     diff_country = false /\ src_type <> YtMusic /\ dst_type <> YtMusic /\
     src_type <> Plex /\ dst_type <> Plex /\ src_country <> dst_country) /\
  (src_type = YtMusic \/ dst_type = YtMusic \/ src_type = Plex \/ dst_type = Plex ->
   exists w', r = ROk w').
Proof.
  cbn zeta. unfold synchronize, country_mismatch, str_eqb.
  assert (Hty : forall a b, MusicApiType_eqb a b = true <-> a = b).
  { intros [] []; cbn; split; congruence. }
  split.
  - destruct diff_country; cbn [negb andb].
    + split; [discriminate|intros (H & _); discriminate].
    + destruct (MusicApiType_eqb src_type YtMusic) eqn:E1;
        [split; [discriminate|intros (_ & H & _); apply Hty in E1; contradiction]|].
      destruct (MusicApiType_eqb dst_type YtMusic) eqn:E2;
        [split; [discriminate|intros (_ & _ & H & _); apply Hty in E2; contradiction]|].
      destruct (MusicApiType_eqb src_type Plex) eqn:E3;
        [split; [discriminate|intros (_ & _ & _ & H & _); apply Hty in E3; contradiction]|].
      destruct (MusicApiType_eqb dst_type Plex) eqn:E4;
        [split; [discriminate|intros (_ & _ & _ & _ & H & _); apply Hty in E4; contradiction]|].
      cbn [negb andb].
      destruct (bool_decide_reflect (src_country = dst_country)) as [Hc|Hc]; cbn [negb].
      * split; [discriminate|intros (_ & _ & _ & _ & _ & H); contradiction].
      * split; [intros _|reflexivity].
        repeat split; try exact Hc; intros ->; cbn in *; discriminate.
  - intros Hs.
    assert (Hm : forall b, negb diff_country && negb (MusicApiType_eqb src_type YtMusic)
                   && negb (MusicApiType_eqb dst_type YtMusic) && negb (MusicApiType_eqb src_type Plex)
                   && negb (MusicApiType_eqb dst_type Plex) && b = false).
    { intros b. destruct diff_country, src_type, dst_type;
        destruct Hs as [H|[H|[H|H]]]; try discriminate; reflexivity. }
    rewrite Hm. eexists. reflexivity.
Qed.

End SyncTopFacts.
